(** * CircleCI workflow test reports: failure aggregation

    A shallow embedding of [utils/process_circleci_workflow_test_reports.py]:
    the model extractor, the name normaliser, the failure aggregator, the
    Markdown renderer and the line-by-line parsing of the [__main__] block,
    together with the properties of them that the design document states. *)

From Stdlib Require Import String Ascii.
From Stdlib Require Import List NArith Arith Bool Lia.
From Stdlib Require Import Sorting.Sorted Permutation.
Import ListNotations.

Set Implicit Arguments.

(** ** Python strings

    A Python [str] is a sequence of Unicode code points.  A code point is a
    number, a string is the list of its code points. *)

Module PyStr.

Definition char := N.
Definition str := list char.

(** A source literal without escapes; escapes are added as code points. *)
Definition py (s : string) : str := map N_of_ascii (list_ascii_of_string s).
Arguments py s%_string.

Definition LF : char := 10%N.
Definition CR : char := 13%N.

Fixpoint str_eqb (a b : str) : bool :=
  match a, b with
  | [], [] => true
  | x :: a', y :: b' => N.eqb x y && str_eqb a' b'
  | _, _ => false
  end.

(** [s.startswith(p)] *)
Fixpoint startswith (p s : str) : bool :=
  match p, s with
  | [], _ => true
  | x :: p', y :: s' => N.eqb x y && startswith p' s'
  | _ :: _, [] => false
  end.

(** The first occurrence of [sep] in [s]: the text before it and the text
    after it. *)
Fixpoint split_once (sep s : str) : option (str * str) :=
  if startswith sep s then Some ([], skipn (length sep) s)
  else match s with
       | [] => None
       | c :: s' =>
           match split_once sep s' with
           | Some (a, b) => Some (c :: a, b)
           | None => None
           end
       end.

(** [sub in s] *)
Definition contains (sub s : str) : bool :=
  match split_once sub s with Some _ => true | None => false end.

(** [s.partition(sep)] *)
Definition partition (sep s : str) : str * str * str :=
  match split_once sep s with
  | Some (a, b) => (a, sep, b)
  | None => (s, [], [])
  end.

(** [s.split(sep, 1)] *)
Definition split1 (sep s : str) : list str :=
  match split_once sep s with
  | Some (a, b) => [a; b]
  | None => [s]
  end.

(** [s.split(sep)] for a non-empty [sep] (every call site passes a literal):
    cut at each occurrence, left to right.  Each cut removes at least one
    character, so [length s] rounds are enough. *)
Fixpoint split_rounds (n : nat) (sep s : str) : list str :=
  match split_once sep s with
  | None => [s]
  | Some (a, b) =>
      match n with
      | O => [s]
      | S n' => a :: split_rounds n' sep b
      end
  end.

Definition split (sep s : str) : list str := split_rounds (length s) sep s.

(** [sep.join(l)] *)
Fixpoint join (sep : str) (l : list str) : str :=
  match l with
  | [] => []
  | [x] => x
  | x :: l' => x ++ sep ++ join sep l'
  end.

(** [str.isspace] of one character: the code points CPython treats as
    whitespace in [strip()] and [split()]. *)
Definition whitespace : list char :=
  [9; 10; 11; 12; 13; 28; 29; 30; 31; 32; 133; 160; 5760; 8192; 8193; 8194;
   8195; 8196; 8197; 8198; 8199; 8200; 8201; 8202; 8232; 8233; 8239; 8287;
   12288]%N.

Definition isspace (c : char) : bool := existsb (N.eqb c) whitespace.

Fixpoint lstrip (s : str) : str :=
  match s with
  | c :: s' => if isspace c then lstrip s' else s
  | [] => []
  end.

Definition rstrip (s : str) : str := rev (lstrip (rev s)).

(** [s.strip()] *)
Definition strip (s : str) : str := rstrip (lstrip s).

(** [s.split()]: the maximal runs of non-whitespace characters.  [cur] is
    the run being read, last character first. *)
Fixpoint split_ws_from (cur s : str) : list str :=
  match s with
  | [] => match cur with [] => [] | _ => [rev cur] end
  | c :: s' =>
      if isspace c
      then match cur with
           | [] => split_ws_from [] s'
           | _ => rev cur :: split_ws_from [] s'
           end
      else split_ws_from (c :: cur) s'
  end.

Definition split_ws (s : str) : list str := split_ws_from [] s.

(** The line boundaries of [str.splitlines]. *)
Definition line_boundaries : list char :=
  [10; 11; 12; 13; 28; 29; 30; 133; 8232; 8233]%N.

Definition is_linebreak (c : char) : bool := existsb (N.eqb c) line_boundaries.

(** [s.splitlines()]: a CR LF pair is one boundary, and a final boundary
    opens no empty last line. *)
Fixpoint splitlines_from (cur s : str) : list str :=
  match s with
  | [] => match cur with [] => [] | _ => [rev cur] end
  | c :: s' =>
      if is_linebreak c
      then match s' with
           | d :: s'' =>
               if N.eqb c CR && N.eqb d LF
               then rev cur :: splitlines_from [] s''
               else rev cur :: splitlines_from [] s'
           | [] => rev cur :: splitlines_from [] s'
           end
      else splitlines_from (c :: cur) s'
  end.

Definition splitlines (s : str) : list str := splitlines_from [] s.

(** [s.lower()] on the ASCII letters.  The only use is the test
    [line.lower().startswith("short test summary")]: no other character
    lowers to a letter of that literal, so the test is decided by the ASCII
    letters alone. *)
Definition lower_char (c : char) : char :=
  if (65 <=? c)%N && (c <=? 90)%N then (c + 32)%N else c.

Definition lower (s : str) : str := map lower_char s.

(** [str(n)] of a non-negative integer *)
Fixpoint uint_chars (d : Decimal.uint) : str :=
  match d with
  | Decimal.Nil => []
  | Decimal.D0 d' => 48%N :: uint_chars d'
  | Decimal.D1 d' => 49%N :: uint_chars d'
  | Decimal.D2 d' => 50%N :: uint_chars d'
  | Decimal.D3 d' => 51%N :: uint_chars d'
  | Decimal.D4 d' => 52%N :: uint_chars d'
  | Decimal.D5 d' => 53%N :: uint_chars d'
  | Decimal.D6 d' => 54%N :: uint_chars d'
  | Decimal.D7 d' => 55%N :: uint_chars d'
  | Decimal.D8 d' => 56%N :: uint_chars d'
  | Decimal.D9 d' => 57%N :: uint_chars d'
  end.

Definition str_of_nat (n : nat) : str := uint_chars (Nat.to_uint n).

End PyStr.

Import PyStr.

(** ** The model extractor *)

Definition _extract_model_name (test_node_id : str) : option str :=
  let file_path := hd [] (split1 (py "::") test_node_id) in
  if startswith (py "tests/models/") file_path then
    let parts := split (py "/") file_path in
    if 3 <=? length parts then Some (nth 2 parts []) else None
  else None.

(** ** The name normaliser *)

(** *** The regular expression [_\d{2,}.*$]

    In a [str] pattern [\d] is a Unicode decimal digit (category Nd; the
    ranges below are those of CPython 3.11), [.] is any character but the
    line feed, and [$] holds at the end of the string and just before a line
    feed that ends the string.  The matcher below tries the alternatives in
    the order of the backtracking engine: the longest repetition first. *)

Definition decimal_ranges : list (N * N) :=
  [(48, 57); (1632, 1641); (1776, 1785); (1984, 1993); (2406, 2415); (2534,
   2543); (2662, 2671); (2790, 2799); (2918, 2927); (3046, 3055); (3174,
   3183); (3302, 3311); (3430, 3439); (3558, 3567); (3664, 3673); (3792,
   3801); (3872, 3881); (4160, 4169); (4240, 4249); (6112, 6121); (6160,
   6169); (6470, 6479); (6608, 6617); (6784, 6793); (6800, 6809); (6992,
   7001); (7088, 7097); (7232, 7241); (7248, 7257); (42528, 42537); (43216,
   43225); (43264, 43273); (43472, 43481); (43504, 43513); (43600, 43609);
   (44016, 44025); (65296, 65305); (66720, 66729); (68912, 68921); (69734,
   69743); (69872, 69881); (69942, 69951); (70096, 70105); (70384, 70393);
   (70736, 70745); (70864, 70873); (71248, 71257); (71360, 71369); (71472,
   71481); (71904, 71913); (72016, 72025); (72784, 72793); (73040, 73049);
   (73120, 73129); (92768, 92777); (92864, 92873); (93008, 93017); (120782,
   120831); (123200, 123209); (123632, 123641); (125264, 125273); (130032,
   130041)]%N.

Definition isdecimal (c : char) : bool :=
  existsb (fun r => (fst r <=? c)%N && (c <=? snd r)%N) decimal_ranges.

Arguments isdecimal : simpl never.

Definition underscore : char := 95%N.

(** [$] at the head of [s] *)
Definition at_end (s : str) : bool :=
  match s with
  | [] => true
  | [c] => N.eqb c LF
  | _ => false
  end.

(** [.*$] at the head of [s]: the number of characters [.*] takes. *)
Fixpoint dotstar_end (s : str) : option nat :=
  match s with
  | c :: s' =>
      if N.eqb c LF then (if at_end s then Some 0 else None)
      else match dotstar_end s' with
           | Some k => Some (S k)
           | None => if at_end s then Some 0 else None
           end
  | [] => Some 0
  end.

(** [\d{2,}.*$] at the head of [s] once [n] digits are read: the number of
    further characters the match takes. *)
Fixpoint digits_dotstar_end (n : nat) (s : str) : option nat :=
  match s with
  | c :: s' =>
      if isdecimal c
      then match digits_dotstar_end (S n) s' with
           | Some k => Some (S k)
           | None => if 2 <=? n then dotstar_end s else None
           end
      else if 2 <=? n then dotstar_end s else None
  | [] => if 2 <=? n then dotstar_end s else None
  end.

(** The whole pattern at the head of [s]: the length of the match. *)
Definition match_suffix (s : str) : option nat :=
  match s with
  | c :: s' =>
      if N.eqb c underscore
      then match digits_dotstar_end 0 s' with
           | Some k => Some (S k)
           | None => None
           end
      else None
  | [] => None
  end.

(** [re.sub(r"_\d{2,}.*$", "", s)]: every match, found left to right, is
    removed; [skip] counts the characters of the current match still to
    drop.  (A match has three characters at least, so none is empty.) *)
Fixpoint re_sub_from (skip : nat) (s : str) : str :=
  match s with
  | [] => []
  | c :: s' =>
      match skip with
      | S k => re_sub_from k s'
      | O =>
          match match_suffix s with
          | Some len => re_sub_from (len - 1) s'
          | None => c :: re_sub_from 0 s'
          end
      end
  end.

Definition re_sub_numeric_suffix (s : str) : str := re_sub_from 0 s.

(** [parts[-1] = v] on a non-empty list *)
Definition set_last (parts : list str) (v : str) : list str :=
  removelast parts ++ [v].

Definition _normalize_test_name (test_name : str) : str :=
  let base_name := hd [] (split1 (py "[") test_name) in
  let parts := split (py "::") base_name in
  let parts :=
    match parts with
    | [] => parts
    | _ :: _ => set_last parts (re_sub_numeric_suffix (last parts []))
    end in
  join (py "::") parts.

(** ** Dictionaries

    A Python [dict] keeps its keys in insertion order, and the report shows
    that order: a dictionary is the list of its items, each key once. *)

Section Dict.

Variables K V : Type.
Variable eqb : K -> K -> bool.

Definition dict := list (K * V).

(** [d.get(k)] *)
Fixpoint dict_get (d : dict) (k : K) : option V :=
  match d with
  | [] => None
  | (k', v) :: d' => if eqb k' k then Some v else dict_get d' k
  end.

(** [k in d] *)
Definition dict_mem (k : K) (d : dict) : bool :=
  match dict_get d k with Some _ => true | None => false end.

(** [d[k] = v]: a key that is there keeps its place. *)
Fixpoint dict_set (d : dict) (k : K) (v : V) : dict :=
  match d with
  | [] => [(k, v)]
  | (k', v') :: d' =>
      if eqb k' k then (k', v) :: d' else (k', v') :: dict_set d' k v
  end.

(** A change made in place to the value under a key that is there. *)
Fixpoint dict_update (d : dict) (k : K) (f : V -> V) : dict :=
  match d with
  | [] => []
  | (k', v) :: d' =>
      if eqb k' k then (k', f v) :: d' else (k', v) :: dict_update d' k f
  end.

(** [dict(items)] *)
Definition dict_of_items (items : list (K * V)) : dict :=
  fold_left (fun d kv => dict_set d (fst kv) (snd kv)) items [].

End Dict.

(** [sorted(l, key=key, reverse=True)]: the sort is stable, and with
    [reverse=True] elements of equal key still keep their original order.
    An element goes in front of the first one whose key is not larger. *)
Fixpoint insert_desc (A : Type) (key : A -> nat) (x : A) (l : list A) : list A :=
  match l with
  | [] => [x]
  | y :: l' => if key x <? key y then y :: insert_desc key x l' else x :: l
  end.

Definition sorted_desc (A : Type) (key : A -> nat) (l : list A) : list A :=
  fold_right (insert_desc key) [] l.

(** ** The failure aggregator *)

Record FailureEntry := {
  job_name : str;
  test_name : str;
  error : str;
  model_name : option str
}.

(** The value of a group: [{"count": ..., "errors": ...}]. *)
Record Group := {
  count : nat;
  errors : dict str nat
}.

(** [Counter()[k] += 1]: a missing key reads as 0. *)
Definition counter_incr (c : dict str nat) (k : str) : dict str nat :=
  dict_set str_eqb c k
    (match dict_get str_eqb c k with Some n => n | None => 0 end + 1).

(** [Counter.most_common()] *)
Definition most_common (c : dict str nat) : list (str * nat) :=
  sorted_desc snd c.

(** The three statements that count one failure under [key]. *)
Definition record_failure (d : dict str Group) (key err : str) : dict str Group :=
  let d :=
    if dict_mem str_eqb key d then d
    else dict_set str_eqb d key {| count := 0; errors := [] |} in
  let d :=
    dict_update str_eqb d key
      (fun info => {| count := count info + 1; errors := errors info |}) in
  dict_update str_eqb d key
    (fun info => {| count := count info;
                    errors := counter_incr (errors info) err |}).

(** The body of the loop over the entries.  [if model_name:] is false for
    [None] and for the empty string. *)
Definition aggregate_entry (st : dict str Group * dict str Group)
    (entry : FailureEntry) : dict str Group * dict str Group :=
  let (by_test, by_model) := st in
  let normalized := _normalize_test_name (test_name entry) in
  let by_test := record_failure by_test normalized (error entry) in
  let by_model :=
    match model_name entry with
    | Some m =>
        match m with
        | _ :: _ => record_failure by_model m (error entry)
        | [] => by_model
        end
    | None => by_model
    end in
  (by_test, by_model).

(** [info["errors"] = dict(info["errors"].most_common())] for every group *)
Definition convert_counters (d : dict str Group) : dict str Group :=
  map (fun kv =>
         (fst kv, {| count := count (snd kv);
                     errors := dict_of_items str_eqb (most_common (errors (snd kv))) |}))
      d.

Definition _aggregate_failures (failure_entries : list FailureEntry)
    : dict str Group * dict str Group :=
  let (by_test, by_model) := fold_left aggregate_entry failure_entries ([], []) in
  (convert_counters by_test, convert_counters by_model).

(** ** The report renderer *)

Definition times_sign : char := 215%N.

(** ["; ".join(f"{count}× {msg}" for msg, count in info["errors"].items())] *)
Definition format_errors (errs : dict str nat) : str :=
  join (py "; ")
    (map (fun mc => str_of_nat (snd mc) ++ [times_sign] ++ py " " ++ fst mc) errs).

(** The rows of one table, by descending count. *)
Definition table_rows (d : dict str Group) : list str :=
  map (fun ki =>
         py "| " ++ fst ki ++ py " | " ++ str_of_nat (count (snd ki))
         ++ py " | " ++ format_errors (errors (snd ki)) ++ py " |")
      (sorted_desc (fun x => count (snd x)) d).

Definition no_failures_line : str := py "No failures were reported." ++ [LF].
Definition by_test_heading : str := py "## By test" ++ [LF].
Definition by_model_heading : str := py "## By model" ++ [LF].

(** The list [lines]; [if failures_by_test:] is true for a non-empty dict. *)
Definition report_lines (failures_by_test failures_by_model : dict str Group)
    : list str :=
  let lines := [py "# Failure summary" ++ [LF]] in
  match failures_by_test with
  | _ :: _ =>
      lines
      ++ [by_test_heading; py "| Test | Failures | Error(s) |"; py "| --- | --- | --- |"]
      ++ table_rows failures_by_test
      ++ [[]]
      ++ [by_model_heading; py "| Model | Failures | Error(s) |"; py "| --- | --- | --- |"]
      ++ table_rows failures_by_model
  | [] => lines ++ [no_failures_line]
  end.

Definition _create_markdown_report (failures_by_test failures_by_model : dict str Group)
    : str :=
  join [LF] (report_lines failures_by_test failures_by_model).

(** ** The summary parser ([__main__], one job) *)

Inductive status := Passed | Failed.

Inductive exn := IndexError.

Inductive result (A : Type) :=
  | Ok (a : A)
  | Raise (e : exn).
Arguments Ok {A} a.
Arguments Raise {A} e.

(** A [for] loop whose body may raise: the first exception ends it. *)
Fixpoint for_each (A S : Type) (body : S -> A -> result S) (l : list A) (s : S)
    : result S :=
  match l with
  | [] => Ok s
  | x :: l' =>
      match body s x with
      | Ok s' => for_each body l' s'
      | Raise e => Raise e
      end
  end.

(** One line of a summary block.  [line[len("FAILED "):].split()[0]] raises
    [IndexError] when [split()] returns no word. *)
Definition summary_line (summary : dict str status) (line : str)
    : result (dict str status) :=
  if startswith (py "PASSED ") line then
    let test := skipn (length (py "PASSED ")) line in
    Ok (dict_set str_eqb summary test Passed)
  else if startswith (py "FAILED ") line then
    match split_ws (skipn (length (py "FAILED ")) line) with
    | test :: _ => Ok (dict_set str_eqb summary test Failed)
    | [] => Raise IndexError
    end
  else Ok summary.

(** The loop over the nodes of a job and over the lines of each summary. *)
Definition parse_summaries (job_test_summaries : dict N str)
    : result (dict str status) :=
  for_each
    (fun summary node => for_each summary_line (splitlines (snd node)) summary)
    job_test_summaries [].

(** The candidate full-error lines of a failure-detail block. *)
Definition keep_failure_line (line : str) : bool :=
  match line with [] => false | _ :: _ => true end
  && negb (startswith (py "=") line || startswith (py "_") line)
  && contains (py ": ") line
  && negb (startswith (py "short test summary") (lower line)).

Definition failure_lines (text : str) : list str :=
  filter keep_failure_line (map strip (splitlines text)).

(** The test of a summary line that yields a failure entry. *)
Definition reported_failure (line : str) : bool :=
  startswith (py "FAILED ") line
  && negb (contains (py " - Failed: (subprocess)") line).

(** One line of the correlation loop; the state is [failure_idx] and the
    list [failure_entries]. *)
Definition correlate_line (job : str) (failure_lines_list : list str)
    (st : nat * list FailureEntry) (line : str) : nat * list FailureEntry :=
  let (failure_idx, failure_entries) := st in
  if reported_failure line then
    let failure_line := strip (skipn (length (py "FAILED ")) line) in
    let '(test_name, _, short_error) := partition (py " - ") failure_line in
    let full_error :=
      if failure_idx <? length failure_lines_list
      then nth failure_idx failure_lines_list []
      else short_error in
    (failure_idx + 1,
     failure_entries
     ++ [{| job_name := job;
            test_name := strip test_name;
            error := full_error;
            model_name := _extract_model_name (strip test_name) |}])
  else st.

(** One node: its filtered detail lines, then its summary lines in order. *)
Definition collect_node (job : str) (job_failure_lines : dict N str)
    (failure_entries : list FailureEntry) (node : N * str) : list FailureEntry :=
  let (node_index, summary_text) := node in
  let failure_lines_list :=
    match dict_get N.eqb job_failure_lines node_index with
    | Some text => failure_lines text
    | None => []
    end in
  snd (fold_left (correlate_line job failure_lines_list)
         (splitlines summary_text) (0, failure_entries)).

(** The loop over the nodes of a job. *)
Definition collect_failures (job : str) (job_test_summaries job_failure_lines : dict N str)
    (failure_entries : list FailureEntry) : list FailureEntry :=
  fold_left (collect_node job job_failure_lines) job_test_summaries failure_entries.

(** ** The job summary and the workflow summary ([__main__])

    Python orders strings by their code points, the first difference
    deciding and a proper prefix coming first, and tuples by their first
    difference. *)

(** [a <= b] on strings *)
Fixpoint str_leb (a b : str) : bool :=
  match a, b with
  | [], _ => true
  | _ :: _, [] => false
  | x :: a', y :: b' => if N.eqb x y then str_leb a' b' else N.ltb x y
  end.

(** [sorted(l)] under the order [leb]: the sort is stable, so an element
    goes in front of the first one that is not smaller. *)
Fixpoint insert_asc (A : Type) (leb : A -> A -> bool) (x : A) (l : list A)
    : list A :=
  match l with
  | [] => [x]
  | y :: l' => if leb x y then x :: l else y :: insert_asc leb x l'
  end.

Definition sorted_asc (A : Type) (leb : A -> A -> bool) (l : list A) : list A :=
  fold_right (insert_asc leb) [] l.

(** The strings ["passed"] and ["failed"] that the summary stores *)
Definition status_str (s : status) : str :=
  match s with
  | Passed => py "passed"
  | Failed => py "failed"
  end.

(** [(x[1], x[0]) <= (y[1], y[0])] on the items of a job summary *)
Definition summary_item_leb (x y : str * status) : bool :=
  if str_eqb (status_str (snd x)) (status_str (snd y))
  then str_leb (fst x) (fst y)
  else str_leb (status_str (snd x)) (status_str (snd y)).

(** [dict(sorted(summary.items(), key=lambda x: (x[1], x[0])))] *)
Definition sort_summary (summary : dict str status) : dict str status :=
  dict_of_items str_eqb (sorted_asc summary_item_leb summary).

(** The summary of a job as it is stored and written: parsed, then
    ordered. *)
Definition job_summary (job_test_summaries : dict N str)
    : result (dict str status) :=
  match parse_summaries job_test_summaries with
  | Ok summary => Ok (sort_summary summary)
  | Raise e => Raise e
  end.

(** The body of the inner loop of the merge:
    [if test not in new: new[test] = {}], then
    [new[test][job_name] = status]. *)
Definition merge_status (new : dict str (dict str status))
    (job_name test : str) (st : status) : dict str (dict str status) :=
  let new :=
    if dict_mem str_eqb test new then new else dict_set str_eqb new test [] in
  dict_update str_eqb new test (fun row => dict_set str_eqb row job_name st).

(** The loop over the items of one job's summary *)
Definition merge_job (new : dict str (dict str status))
    (job : str * dict str status) : dict str (dict str status) :=
  fold_left (fun new ts => merge_status new (fst job) (fst ts) (snd ts))
    (snd job) new.

(** The loop over the jobs of the workflow *)
Definition merge_workflow (workflow_summary : dict str (dict str status))
    : dict str (dict str status) :=
  fold_left merge_job workflow_summary [].

(** [x <= y] on the items [(job_name, status)] of a row *)
Definition row_item_leb (x y : str * status) : bool :=
  if str_eqb (fst x) (fst y)
  then str_leb (status_str (snd x)) (status_str (snd y))
  else str_leb (fst x) (fst y).

(** The two sorts that end the merge: every row by job name, then the rows
    by test.  The tests of a dictionary differ, so the comparison of two of
    its items is decided by the tests and never looks at the rows. *)
Definition sort_workflow (new : dict str (dict str status))
    : dict str (dict str status) :=
  let new :=
    map (fun tr => (fst tr, dict_of_items str_eqb (sorted_asc row_item_leb (snd tr))))
      new in
  dict_of_items str_eqb (sorted_asc (fun x y => str_leb (fst x) (fst y)) new).

Definition new_workflow_summary (workflow_summary : dict str (dict str status))
    : dict str (dict str status) :=
  sort_workflow (merge_workflow workflow_summary).

(** ** Reference definitions used in the statements *)

(** [_], digit, digit at the head of [s] *)
Definition numeric_suffix_here (s : str) : bool :=
  match s with
  | c :: d1 :: d2 :: _ => N.eqb c underscore && isdecimal d1 && isdecimal d2
  | _ => false
  end.

(** [s] up to the first underscore that two digits follow *)
Fixpoint cut_numeric_suffix (s : str) : str :=
  match s with
  | [] => []
  | c :: s' => if numeric_suffix_here s then [] else c :: cut_numeric_suffix s'
  end.

(** The number of digits [s] begins with *)
Fixpoint leading_digits (s : str) : nat :=
  match s with
  | c :: s' => if isdecimal c then S (leading_digits s') else 0
  | [] => 0
  end.

(** [p] is the part of [s] before the first occurrence of [sep], or all of
    [s] when [sep] does not occur. *)
Definition before_first (sep s p : str) : Prop :=
  (exists rest, s = p ++ sep ++ rest
     /\ forall p' rest', s = p' ++ sep ++ rest' -> length p <= length p')
  \/ (p = s /\ forall p' rest', s <> p' ++ sep ++ rest').

Definition slash : char := 47%N.

(** The short error of a summary line: the text after the first [" - "] of
    what follows the [FAILED ] prefix, once stripped. *)
Definition short_error (line : str) : str :=
  snd (partition (py " - ") (strip (skipn (length (py "FAILED ")) line))).

(** The distinct elements of [l] in the order of their first occurrence *)
Fixpoint first_seen (l : list str) : list str :=
  match l with
  | [] => []
  | x :: l' => x :: filter (fun y => negb (str_eqb y x)) (first_seen l')
  end.

(** The number of occurrences of [m] in [l] *)
Definition occurrences (m : str) (l : list str) : nat :=
  length (filter (fun x => str_eqb x m) l).

(** [sum(info["count"] for info in d.values())] *)
Definition sum_counts (d : dict str Group) : nat :=
  fold_right (fun kv acc => count (snd kv) + acc) 0 d.

(** The count of the group under [k], 0 when there is no such group *)
Definition count_under (d : dict str Group) (k : str) : nat :=
  match dict_get str_eqb d k with
  | Some info => count info
  | None => 0
  end.

(** The by-test key of an entry *)
Definition test_key (e : FailureEntry) : str :=
  _normalize_test_name (test_name e).

(** The entry has the model name [m]. *)
Definition has_model (m : str) (e : FailureEntry) : bool :=
  match model_name e with
  | Some m' => str_eqb m' m
  | None => false
  end.

(** The entry has a model name, empty or not. *)
Definition model_present (e : FailureEntry) : bool :=
  match model_name e with Some _ => true | None => false end.

(** The entry has a model name that is not empty. *)
Definition model_nonempty (e : FailureEntry) : bool :=
  match model_name e with Some (_ :: _) => true | _ => false end.

(** Change the value under [k] by [f], or add [k] with [v0] at the end. *)
Fixpoint upsert (V : Type) (d : dict str V) (k : str) (f : V -> V) (v0 : V)
    : dict str V :=
  match d with
  | [] => [(k, v0)]
  | (k', v) :: d' =>
      if str_eqb k' k then (k', f v) :: d' else (k', v) :: upsert d' k f v0
  end.
Arguments upsert {V} d k f v0.

(** Filling a dictionary item by item: each item changes the value under
    its key, starting from [init] for a new key. *)
Section Grouping.

Variables V X : Type.
Variable key : X -> str.
Variable step : X -> V -> V.
Variable init : V.

Definition add_item (d : dict str V) (x : X) : dict str V :=
  upsert d (key x) (step x) (step x init).

(** What the items of key [k] add up to *)
Definition group_value (k : str) (items : list X) : V :=
  fold_left (fun v x => step x v)
    (filter (fun x => str_eqb (key x) k) items) init.

End Grouping.

(** One failure with message [err] counted in a group *)
Definition count_failure (err : str) (info : Group) : Group :=
  {| count := count info + 1; errors := counter_incr (errors info) err |}.

Definition new_group : Group := {| count := 0; errors := [] |}.

(** The by-model key of an entry that has one *)
Definition model_key (e : FailureEntry) : str :=
  match model_name e with Some m => m | None => [] end.

(** The messages of the entries whose key is [k], in input order *)
Definition messages_under (key : FailureEntry -> str) (k : str)
    (entries : list FailureEntry) : list str :=
  map error (filter (fun e => str_eqb (key e) k) entries).

(** The tally of a list of messages: each distinct message with its number
    of occurrences, in first-seen order *)
Definition tally (msgs : list str) : list (str * nat) :=
  map (fun m => (m, occurrences m msgs)) (first_seen msgs).

(** The renderer of the design document: "no failures" when both mappings
    are empty, both tables otherwise. *)
Definition report_lines_spec (failures_by_test failures_by_model : dict str Group)
    : list str :=
  let lines := [py "# Failure summary" ++ [LF]] in
  match failures_by_test, failures_by_model with
  | [], [] => lines ++ [no_failures_line]
  | _, _ =>
      lines
      ++ [by_test_heading; py "| Test | Failures | Error(s) |"; py "| --- | --- | --- |"]
      ++ table_rows failures_by_test
      ++ [[]]
      ++ [by_model_heading; py "| Model | Failures | Error(s) |"; py "| --- | --- | --- |"]
      ++ table_rows failures_by_model
  end.

Definition _create_markdown_report_spec
    (failures_by_test failures_by_model : dict str Group) : str :=
  join [LF] (report_lines_spec failures_by_test failures_by_model).

(** The order of the errors of a group whose messages are [msgs]: by
    descending count, each count being the number of occurrences of the
    message, and the messages of one count in first-seen order. *)
Definition by_descending_count (msgs : list str) (errs : dict str nat) : Prop :=
  StronglySorted (fun a b => snd b <= snd a) errs
  /\ (forall m n, In (m, n) errs <-> In m msgs /\ n = occurrences m msgs)
  /\ forall c,
       map fst (filter (fun mc => snd mc =? c) errs)
       = filter (fun m => occurrences m msgs =? c) (first_seen msgs).

Definition bracket : char := 91%N.
Definition colon : char := 58%N.

(** One row of a table: [f"| {test} | {info['count']} | {errors} |"] *)
Definition format_row (ki : str * Group) : str :=
  py "| " ++ fst ki ++ py " | " ++ str_of_nat (count (snd ki))
  ++ py " | " ++ format_errors (errors (snd ki)) ++ py " |".

(** The line records the status [st] for the test [t]. *)
Definition records (line t : str) (st : status) : Prop :=
  summary_line [] line = Ok [(t, st)].

(** The lines of all summary blocks of a job, in the order of the loops *)
Definition summary_lines (job_test_summaries : dict N str) : list str :=
  flat_map (fun node => splitlines (snd node)) job_test_summaries.

(** The line starts with [FAILED ] and holds only whitespace behind it. *)
Definition blank_failed (line : str) : bool :=
  startswith (py "FAILED ") line
  && forallb isspace (skipn (length (py "FAILED ")) line).

(** The order of a job summary: failed before passed, then by test name *)
Definition summary_before (x y : str * status) : Prop :=
  match snd x, snd y with
  | Failed, Passed => True
  | Passed, Failed => False
  | _, _ => str_leb (fst x) (fst y) = true
  end.

(** [d[a][b]], when both keys are there *)
Definition status_of (d : dict str (dict str status)) (a b : str)
    : option status :=
  match dict_get str_eqb d a with
  | Some row => dict_get str_eqb row b
  | None => None
  end.

(** The order of pairs of strings: by [f], then by [g] *)
Definition lex_leb (A : Type) (f g : A -> str) (x y : A) : bool :=
  if str_eqb (f x) (f y) then str_leb (g x) (g y) else str_leb (f x) (f y).

(** What the fields of an entry made for the job [job] satisfy *)
Definition entry_of_job (job : str) (e : FailureEntry) : Prop :=
  job_name e = job
  /\ model_name e = _extract_model_name (test_name e)
  /\ strip (test_name e) = test_name e.

(** The assignments of the merge, in the order of its loops: job name,
    test and status *)
Definition workflow_items (workflow_summary : dict str (dict str status))
    : list (str * str * status) :=
  flat_map (fun job => map (fun ts => (fst job, fst ts, snd ts)) (snd job))
    workflow_summary.

(** The pairs of job name and status assigned to the row of the test [t],
    in the order of the assignments *)
Definition row_pairs (workflow_summary : dict str (dict str status)) (t : str)
    : list (str * status) :=
  map (fun x => (fst (fst x), snd x))
    (filter (fun x => str_eqb (snd (fst x)) t) (workflow_items workflow_summary)).

(** * Properties *)

Unset Implicit Arguments.

(** ** Examples

    The built-in string operations and the two helpers on the inputs of the
    design document. *)

Example extract_bart :
  _extract_model_name (py "tests/models/bart/test_modeling_bart.py::TestBart::test_x")
  = Some (py "bart").
Proof. reflexivity. Qed.

Example split_triple : split (py "::") (py "a:::b") = [py "a"; py ":b"].
Proof. reflexivity. Qed.

Example splitlines_ex :
  splitlines (py "a" ++ [CR; LF] ++ py "b" ++ [LF; LF] ++ py "c" ++ [LF])
  = [py "a"; py "b"; []; py "c"].
Proof. reflexivity. Qed.

Example normalize_param :
  _normalize_test_name (py "tests/x.py::test_foo[a-b]") = py "tests/x.py::test_foo".
Proof. reflexivity. Qed.

Example normalize_suffix :
  _normalize_test_name (py "pkg::test_bar_042_extra") = py "pkg::test_bar".
Proof. reflexivity. Qed.

Example re_sub_examples :
  map re_sub_numeric_suffix
    [py "a_12" ++ [LF] ++ py "_34"; py "a_12" ++ [LF];
     py "a_12_34" ++ [LF] ++ py "_56"; py "a_12" ++ [LF; LF]; py "x_123abc";
     py "a_1_22"; py "a_12" ++ [CR] ++ py "_34"]
  = [py "a_12" ++ [LF]; py "a" ++ [LF]; py "a_12_34" ++ [LF];
     py "a_12" ++ [LF; LF]; py "x"; py "a_1"; py "a"].
Proof. reflexivity. Qed.

(** The failure entry of the end-to-end scenario: one passed and one failed
    test, no detail text. *)
Example scenario_entries :
  collect_failures (py "tests_torch")
    [(0%N, py "PASSED a::b" ++ [LF] ++ py "FAILED c::d - AssertionError")] [] []
  = [{| job_name := py "tests_torch"; test_name := py "c::d";
        error := py "AssertionError"; model_name := None |}].
Proof. reflexivity. Qed.


(** ** Strings *)

Module PyStrFacts.

Lemma str_eqb_spec (a b : str) : reflect (a = b) (str_eqb a b).
Proof.
  revert b; induction a as [|x a IH]; intros [|y b]; simpl;
    try (constructor; congruence).
  destruct (N.eqb_spec x y) as [->|Hxy]; simpl.
  - destruct (IH b) as [->|Hab]; constructor; congruence.
  - constructor; congruence.
Qed.

Lemma str_eqb_refl (a : str) : str_eqb a a = true.
Proof. destruct (str_eqb_spec a a); congruence. Qed.

Lemma str_eqb_neq (a b : str) : a <> b -> str_eqb a b = false.
Proof. destruct (str_eqb_spec a b); congruence. Qed.

Lemma startswith_iff (p s : str) :
  startswith p s = true <-> exists r, s = p ++ r.
Proof.
  revert s; induction p as [|x p IH]; intros s; simpl.
  - split; eauto.
  - destruct s as [|y s].
    + split; [discriminate | intros [r Hr]; discriminate].
    + rewrite andb_true_iff, N.eqb_eq, IH. split.
      * intros [-> [r ->]]. now exists r.
      * intros [r Hr]. injection Hr as -> ->. eauto.
Qed.

Lemma startswith_app (p r : str) : startswith p (p ++ r) = true.
Proof. apply startswith_iff; eauto. Qed.

(** Only the first [length p] characters decide [startswith p]. *)
Lemma startswith_long (p u v : str) :
  length p <= length u -> startswith p (u ++ v) = startswith p u.
Proof.
  revert u; induction p as [|x p IH]; intros [|y u] Hlen; simpl in *;
    try reflexivity; try lia.
  rewrite IH by lia. reflexivity.
Qed.

Lemma startswith_prefix (p u v : str) :
  startswith p u = true -> startswith p (u ++ v) = true.
Proof.
  rewrite !startswith_iff. intros [r ->]. exists (r ++ v).
  now rewrite app_assoc.
Qed.

Lemma skipn_length_app (p r : str) : skipn (length p) (p ++ r) = r.
Proof. induction p; simpl; auto. Qed.

Lemma split_once_some (sep s a b : str) :
  split_once sep s = Some (a, b) -> s = a ++ sep ++ b.
Proof.
  revert a; induction s as [|c s IH]; intros a; simpl.
  - destruct (startswith sep []) eqn:E; [|discriminate].
    intros [= <- <-]. apply startswith_iff in E as [r Hr].
    symmetry in Hr. apply app_eq_nil in Hr as [-> ->]. reflexivity.
  - destruct (startswith sep (c :: s)) eqn:E.
    + intros [= <- <-]. apply startswith_iff in E as [r Hr].
      rewrite Hr, skipn_length_app. reflexivity.
    + destruct (split_once sep s) as [[a' b']|]; [|discriminate].
      intros [= <- <-]. simpl. f_equal. now apply IH.
Qed.

Lemma split_once_eq (sep s : str) :
  split_once sep s =
  if startswith sep s then Some ([], skipn (length sep) s)
  else match s with
       | [] => None
       | c :: s' =>
           match split_once sep s' with
           | Some (a, b) => Some (c :: a, b)
           | None => None
           end
       end.
Proof. destruct s; reflexivity. Qed.

(** Where the first occurrence lies does not depend on what follows it. *)
Lemma split_once_stable (sep s a b x : str) :
  split_once sep s = Some (a, b) ->
  split_once sep (a ++ sep ++ x) = Some (a, x).
Proof.
  revert s; induction a as [|c a IH]; intros s Hs.
  - simpl. rewrite split_once_eq, startswith_app, skipn_length_app. reflexivity.
  - pose proof (split_once_some _ _ _ _ Hs) as ->.
    assert (Hsw : forall v, startswith sep ((c :: a) ++ sep ++ v)
                            = startswith sep ((c :: a) ++ sep)).
    { intros v. rewrite app_assoc. apply startswith_long.
      rewrite length_app. simpl. lia. }
    rewrite split_once_eq, Hsw in Hs. rewrite split_once_eq, Hsw.
    destruct (startswith sep ((c :: a) ++ sep)); [discriminate|].
    simpl in Hs |- *.
    destruct (split_once sep (a ++ sep ++ b)) as [[a' b']|] eqn:E;
      [|discriminate].
    injection Hs as -> ->. now rewrite (IH _ E).
Qed.

Lemma split_once_none_prefix (sep x y : str) :
  split_once sep (x ++ y) = None -> split_once sep x = None.
Proof.
  induction x as [|c x IH]; simpl.
  - destruct sep; simpl; [|reflexivity].
    destruct y; simpl; discriminate.
  - destruct (startswith sep (c :: x ++ y)) eqn:E; [discriminate|].
    destruct (startswith sep (c :: x)) eqn:E'.
    + apply startswith_prefix with (v := y) in E'. simpl in *. congruence.
    + destruct (split_once sep (x ++ y)) as [[a b]|]; [discriminate|].
      intros _. now rewrite IH.
Qed.

Lemma split_once_nil (sep : str) : sep <> [] -> split_once sep [] = None.
Proof. destruct sep; [congruence | reflexivity]. Qed.

(** The text before the first occurrence holds no occurrence. *)
Lemma split_once_before (sep s a b : str) :
  sep <> [] -> split_once sep s = Some (a, b) -> split_once sep a = None.
Proof.
  intros Hsep. revert a; induction s as [|c s IH]; intros a; simpl.
  - destruct (startswith sep []); [|discriminate].
    intros [= <- <-]. now apply split_once_nil.
  - destruct (startswith sep (c :: s)) eqn:E.
    + intros [= <- <-]. now apply split_once_nil.
    + destruct (split_once sep s) as [[a' b']|] eqn:E'; [|discriminate].
      intros [= <- <-]. simpl.
      destruct (startswith sep (c :: a')) eqn:E''.
      * apply split_once_some in E'. subst s.
        apply startswith_prefix with (v := sep ++ b') in E''.
        simpl in *. congruence.
      * now rewrite (IH _ eq_refl).
Qed.

(** *** [split] and [join] *)

Lemma split_once_shorter (sep s a b : str) :
  sep <> [] -> split_once sep s = Some (a, b) -> length b < length s.
Proof.
  intros Hsep H. apply split_once_some in H. subst s.
  rewrite !length_app. destruct sep; [congruence | simpl; lia].
Qed.

Lemma split_rounds_eq (n : nat) (sep s : str) :
  split_rounds n sep s =
  match split_once sep s with
  | None => [s]
  | Some (a, b) =>
      match n with
      | O => [s]
      | S n' => a :: split_rounds n' sep b
      end
  end.
Proof. destruct n; reflexivity. Qed.

(** More rounds than characters change nothing. *)
Lemma split_rounds_enough (sep : str) (n : nat) (s : str) :
  sep <> [] -> length s <= n -> split_rounds n sep s = split sep s.
Proof.
  intros Hsep. unfold split.
  remember (length s) as m eqn:Hm. assert (Hle : length s <= m) by lia.
  clear Hm. revert s n Hle.
  induction m as [|m IH]; intros s n Hle Hn;
    rewrite (split_rounds_eq n), (split_rounds_eq _ sep s);
    destruct (split_once sep s) as [[a b]|] eqn:E; try reflexivity;
    pose proof (split_once_shorter _ _ _ _ Hsep E).
  - lia.
  - destruct n as [|n]; [lia|].
    f_equal. apply IH; lia.
Qed.

Lemma split_eq (sep s : str) :
  sep <> [] ->
  split sep s = match split_once sep s with
                | None => [s]
                | Some (a, b) => a :: split sep b
                end.
Proof.
  intros Hsep. unfold split at 1. rewrite split_rounds_eq.
  destruct (split_once sep s) as [[a b]|] eqn:E; [|reflexivity].
  pose proof (split_once_shorter _ _ _ _ Hsep E).
  destruct (length s) as [|n] eqn:El; [lia|].
  f_equal. apply split_rounds_enough; auto; lia.
Qed.

(** Induction on a string along the cuts of [split]. *)
Lemma split_ind (sep : str) (Hsep : sep <> []) (P : str -> Prop) :
  (forall s, split_once sep s = None -> P s) ->
  (forall s a b, split_once sep s = Some (a, b) -> P b -> P s) ->
  forall s, P s.
Proof.
  intros Hnone Hsome s.
  remember (length s) as n eqn:Hn. revert s Hn.
  induction n as [n IH] using lt_wf_ind. intros s ->.
  destruct (split_once sep s) as [[a b]|] eqn:E; [|auto].
  apply (Hsome _ _ _ E). apply (IH (length b)); auto.
  eapply split_once_shorter; eauto.
Qed.

Lemma split_snoc (sep s : str) :
  sep <> [] -> exists ps q, split sep s = ps ++ [q].
Proof.
  intros Hsep. induction s as [s E | s a b E [ps [q IH]]] using (split_ind sep Hsep);
    rewrite split_eq, E by assumption.
  - now exists [], s.
  - exists (a :: ps), q. now rewrite IH.
Qed.

Lemma join_cons (sep x : str) (l : list str) :
  l <> [] -> join sep (x :: l) = x ++ sep ++ join sep l.
Proof. destruct l; [congruence | reflexivity]. Qed.

Lemma join_snoc_app (sep : str) (ps : list str) (q r : str) :
  join sep (ps ++ [q ++ r]) = join sep (ps ++ [q]) ++ r.
Proof.
  induction ps as [|p ps IH]; [reflexivity|].
  rewrite <- !app_comm_cons, !join_cons, IH by (now destruct ps).
  now rewrite <- !app_assoc.
Qed.

Lemma join_snoc_suffix (sep : str) (ps : list str) (q : str) :
  exists pre, join sep (ps ++ [q]) = pre ++ q.
Proof.
  exists (join sep (ps ++ [[]])).
  now rewrite <- join_snoc_app.
Qed.

Lemma join_split (sep s : str) : sep <> [] -> join sep (split sep s) = s.
Proof.
  intros Hsep. induction s as [s E | s a b E IH] using (split_ind sep Hsep);
    rewrite split_eq, E by assumption.
  - reflexivity.
  - destruct (split_snoc sep b Hsep) as [ps [q Hb]].
    rewrite join_cons, IH by (rewrite Hb; now destruct ps).
    symmetry. now apply split_once_some.
Qed.

(** The last part may be cut short: the parts before it come out of a new
    [split] unchanged. *)
Lemma split_join_prefix (sep s : str) (ps : list str) (q q' r : str) :
  sep <> [] -> split sep s = ps ++ [q] -> q = q' ++ r ->
  split sep (join sep (ps ++ [q'])) = ps ++ [q'].
Proof.
  intros Hsep. revert ps.
  induction s as [s E | s a b E IH] using (split_ind sep Hsep); intros ps;
    rewrite split_eq, E by assumption; intros Hs Hq.
  - destruct ps as [|p ps]; [|destruct ps; discriminate].
    injection Hs as Hs. subst. simpl.
    rewrite split_eq, (split_once_none_prefix _ _ _ E) by assumption.
    reflexivity.
  - destruct ps as [|p ps].
    + destruct (split_snoc sep b Hsep) as [ps' [q0 Hb]]. rewrite Hb in Hs.
      destruct ps'; discriminate.
    + injection Hs as -> Hb.
      rewrite <- app_comm_cons, join_cons by (now destruct ps).
      rewrite split_eq, (split_once_stable _ _ _ _ _ E) by assumption.
      now rewrite (IH _ Hb Hq).
Qed.

(** *** First occurrences and segments *)

Lemma split_once_first (sep s a b : str) :
  split_once sep s = Some (a, b) ->
  forall a' b', s = a' ++ sep ++ b' -> length a <= length a'.
Proof.
  revert a; induction s as [|c s IH]; intros a; rewrite split_once_eq.
  - destruct (startswith sep []); [|discriminate].
    intros [= <- <-] a' b' _. simpl. lia.
  - destruct (startswith sep (c :: s)) eqn:E.
    + intros [= <- <-] a' b' _. simpl. lia.
    + destruct (split_once sep s) as [[a0 b0]|] eqn:E0; [|discriminate].
      intros [= <- <-] [|c' a'] b' H.
      * simpl in H. rewrite H, startswith_app in E. discriminate.
      * injection H as -> H. simpl. apply le_n_S. now apply (IH a0 eq_refl a' b').
Qed.

Lemma split_once_absent (sep s : str) :
  split_once sep s = None -> forall a' b', s <> a' ++ sep ++ b'.
Proof.
  induction s as [|c s IH]; rewrite split_once_eq.
  - destruct (startswith sep []) eqn:E; [discriminate|].
    intros _ a' b' H. destruct a'; simpl in H.
    + rewrite H, startswith_app in E. discriminate.
    + discriminate.
  - destruct (startswith sep (c :: s)) eqn:E; [discriminate|].
    destruct (split_once sep s) as [[a0 b0]|] eqn:E0; [discriminate|].
    intros _ [|c' a'] b' H.
    + simpl in H. rewrite H, startswith_app in E. discriminate.
    + injection H as -> H. now apply (IH eq_refl a' b').
Qed.

(** [s.split(sep, 1)] has a first element. *)
Lemma split1_nonempty (sep s : str) : split1 sep s <> [].
Proof. unfold split1. destruct (split_once sep s) as [[a b]|]; discriminate. Qed.

(** [s.split(sep, 1)[0]] is the text before the first [sep]. *)
Lemma split1_head (sep s : str) : before_first sep s (hd [] (split1 sep s)).
Proof.
  unfold split1, before_first.
  destruct (split_once sep s) as [[a b]|] eqn:E; simpl.
  - left. exists b. split.
    + now apply split_once_some.
    + now apply (split_once_first sep s a b).
  - right. split; [reflexivity | now apply split_once_absent].
Qed.

Lemma split_parts_free (sep s : str) :
  sep <> [] -> Forall (fun p => split_once sep p = None) (split sep s).
Proof.
  intros Hsep. induction s as [s E | s a b E IH] using (split_ind sep Hsep);
    rewrite split_eq, E by assumption.
  - now constructor.
  - constructor; [|assumption]. now apply (split_once_before sep s a b).
Qed.

Lemma split_once_char (c : char) (s : str) :
  split_once [c] s = None -> ~ In c s.
Proof.
  induction s as [|x s IH]; [tauto|]. rewrite split_once_eq. simpl.
  destruct (N.eqb_spec c x) as [->|Hcx]; simpl; [discriminate|].
  destruct (split_once [c] s) as [[a b]|]; [discriminate|].
  intros _ [H|H]; [congruence | now apply IH].
Qed.

(** The segments between the occurrences of one character. *)
Lemma split_char_segments (c : char) (s : str) :
  join [c] (split [c] s) = s /\ Forall (fun p => ~ In c p) (split [c] s).
Proof.
  split; [apply join_split; discriminate|].
  eapply Forall_impl; [|apply split_parts_free; discriminate].
  apply split_once_char.
Qed.

End PyStrFacts.

(** ** The name normaliser *)

Module Normalizer.

Import PyStrFacts.

Lemma dotstar_end_line (s : str) :
  ~ In LF s -> dotstar_end s = Some (length s).
Proof.
  induction s as [|c s IH]; [reflexivity|]. intros H. simpl in *.
  destruct (N.eqb_spec c LF) as [->|_]; [tauto|].
  rewrite IH by tauto. reflexivity.
Qed.

Lemma digits_dotstar_end_line (s : str) (n : nat) :
  ~ In LF s ->
  digits_dotstar_end n s
  = if 2 <=? n + leading_digits s then Some (length s) else None.
Proof.
  revert n; induction s as [|c s IH]; intros n H.
  - simpl. rewrite Nat.add_0_r. reflexivity.
  - cbn [digits_dotstar_end leading_digits].
    rewrite dotstar_end_line by assumption.
    destruct (isdecimal c).
    + rewrite IH by (simpl in H; tauto).
      replace (S n + leading_digits s) with (n + S (leading_digits s)) by lia.
      destruct (2 <=? n + S (leading_digits s)) eqn:E; [reflexivity|].
      apply Nat.leb_gt in E.
      destruct (Nat.leb_spec 2 n); [lia | reflexivity].
    + rewrite Nat.add_0_r. reflexivity.
Qed.

Lemma numeric_suffix_here_digits (c : char) (s : str) :
  numeric_suffix_here (c :: s)
  = N.eqb c underscore && (2 <=? leading_digits s).
Proof.
  destruct s as [|d1 [|d2 s]]; simpl.
  - now rewrite andb_false_r.
  - destruct (isdecimal d1); now rewrite andb_false_r.
  - destruct (isdecimal d1), (isdecimal d2); simpl;
      now rewrite ?andb_true_r, ?andb_false_r.
Qed.

(** On a string without line feed a match runs to the end. *)
Lemma match_suffix_line (s : str) :
  ~ In LF s ->
  match_suffix s = if numeric_suffix_here s then Some (length s) else None.
Proof.
  destruct s as [|c s]; [reflexivity|]. intros H.
  rewrite numeric_suffix_here_digits. cbn [match_suffix].
  destruct (N.eqb c underscore); [|reflexivity].
  rewrite digits_dotstar_end_line by (simpl in H; tauto).
  simpl. destruct (leading_digits s) as [|[|k]]; reflexivity.
Qed.

Lemma re_sub_from_skip_all (s : str) (k : nat) :
  length s <= k -> re_sub_from k s = [].
Proof.
  revert k; induction s as [|c s IH]; intros k H; [reflexivity|].
  destruct k; simpl in *; [lia|]. apply IH. lia.
Qed.

(** On a string without line feed the substitution cuts at the first
    underscore that two digits follow. *)
Lemma re_sub_line (s : str) :
  ~ In LF s -> re_sub_numeric_suffix s = cut_numeric_suffix s.
Proof.
  unfold re_sub_numeric_suffix.
  induction s as [|c s IH]; [reflexivity|]. intros H.
  cbn [re_sub_from cut_numeric_suffix].
  rewrite match_suffix_line by assumption.
  destruct (numeric_suffix_here (c :: s)).
  - apply re_sub_from_skip_all. simpl. lia.
  - rewrite IH by (simpl in H; tauto). reflexivity.
Qed.

Lemma cut_prefix (s : str) : exists r, s = cut_numeric_suffix s ++ r.
Proof.
  induction s as [|c s [r IH]]; [now exists []|].
  cbn [cut_numeric_suffix]. destruct (numeric_suffix_here (c :: s)).
  - now exists (c :: s).
  - exists r. simpl. now f_equal.
Qed.

Lemma cut_cut (s : str) :
  cut_numeric_suffix (cut_numeric_suffix s) = cut_numeric_suffix s.
Proof.
  induction s as [|c s IH]; [reflexivity|].
  cbn [cut_numeric_suffix].
  destruct (numeric_suffix_here (c :: s)) eqn:E; [reflexivity|].
  cbn [cut_numeric_suffix]. rewrite IH.
  destruct (numeric_suffix_here (c :: cut_numeric_suffix s)) eqn:E';
    [|reflexivity].
  destruct (cut_prefix s) as [r Hr]. rewrite Hr in E.
  destruct (cut_numeric_suffix s) as [|d1 [|d2 t]]; simpl in E';
    try discriminate.
  simpl in E. congruence.
Qed.

Lemma sep_colons : py "::" <> [].
Proof. discriminate. Qed.

Lemma not_in_app_l (c : char) (a b : str) : ~ In c (a ++ b) -> ~ In c a.
Proof. rewrite in_app_iff. tauto. Qed.

Lemma not_in_app_r (c : char) (a b : str) : ~ In c (a ++ b) -> ~ In c b.
Proof. rewrite in_app_iff. tauto. Qed.

Lemma not_in_check (c : char) (s : str) :
  existsb (N.eqb c) s = false -> ~ In c s.
Proof.
  intros H Hin. assert (existsb (N.eqb c) s = true); [|congruence].
  apply existsb_exists. exists c. split; [assumption | apply N.eqb_refl].
Qed.

(** The text before the first bracket: a prefix that holds no bracket. *)
Lemma base_name_spec (s : str) :
  let base_name := hd [] (split1 (py "[") s) in
  split_once (py "[") base_name = None /\ exists r, s = base_name ++ r.
Proof.
  unfold split1. destruct (split_once (py "[") s) as [[a b]|] eqn:E; simpl.
  - split.
    + eapply split_once_before; [discriminate | exact E].
    + apply split_once_some in E. eauto.
  - split; [assumption|]. exists []. now rewrite app_nil_r.
Qed.

(** The normaliser rewrites the last part and nothing else. *)
Lemma normalize_parts (s : str) (ps : list str) (q : str) :
  split (py "::") (hd [] (split1 (py "[") s)) = ps ++ [q] ->
  _normalize_test_name s = join (py "::") (ps ++ [re_sub_numeric_suffix q]).
Proof.
  intros H. unfold _normalize_test_name. rewrite H.
  destruct (ps ++ [q]) eqn:E; [now destruct ps|]. rewrite <- E.
  unfold set_last. now rewrite removelast_last, last_last.
Qed.

Lemma normalize_line (s : str) :
  ~ In LF s ->
  exists ps q,
    split (py "::") (hd [] (split1 (py "[") s)) = ps ++ [q]
    /\ ~ In LF q
    /\ split_once (py "[") (join (py "::") (ps ++ [q])) = None
    /\ _normalize_test_name s = join (py "::") (ps ++ [cut_numeric_suffix q]).
Proof.
  intros Hs. destruct (base_name_spec s) as [Hb [r Hr]].
  set (base := hd [] (split1 (py "[") s)) in *.
  destruct (split_snoc (py "::") base sep_colons) as [ps [q Hsplit]].
  exists ps, q.
  pose proof (join_split (py "::") base sep_colons) as Hj.
  rewrite Hsplit in Hj.
  assert (Hq : ~ In LF q).
  { destruct (join_snoc_suffix (py "::") ps q) as [pre Hpre].
    rewrite Hr, <- Hj, Hpre in Hs.
    eapply not_in_app_r, not_in_app_l, Hs. }
  repeat split; auto.
  - now rewrite Hj.
  - rewrite (normalize_parts s ps q Hsplit). now rewrite re_sub_line.
Qed.

End Normalizer.

(** C5, as amended.  On every test name that holds no line feed the
    normaliser is idempotent: normalising its own result changes nothing.
    (Test names come from [splitlines()], so they hold none.) *)
Theorem normalize_idempotent_line (s : str) :
  ~ In LF s ->
  _normalize_test_name (_normalize_test_name s) = _normalize_test_name s.
Proof.
  intros Hs.
  destruct (Normalizer.normalize_line s Hs) as (ps & q & Hsplit & Hq & Hb & Hn).
  destruct (Normalizer.cut_prefix q) as [r Hr].
  set (t := join (py "::") (ps ++ [cut_numeric_suffix q])) in *.
  assert (Ht : join (py "::") (ps ++ [q]) = t ++ r).
  { unfold t. rewrite <- PyStrFacts.join_snoc_app. now rewrite <- Hr. }
  assert (Hbase : hd [] (split1 (py "[") t) = t).
  { unfold split1. rewrite Ht in Hb.
    now rewrite (PyStrFacts.split_once_none_prefix _ _ _ Hb). }
  assert (Hsplit' : split (py "::") t = ps ++ [cut_numeric_suffix q]).
  { eapply PyStrFacts.split_join_prefix;
      [apply Normalizer.sep_colons | exact Hsplit | exact Hr]. }
  rewrite Hn. fold t.
  rewrite (Normalizer.normalize_parts t ps (cut_numeric_suffix q))
    by now rewrite Hbase.
  rewrite Normalizer.re_sub_line, Normalizer.cut_cut; [reflexivity|].
  rewrite Hr in Hq. eapply Normalizer.not_in_app_l, Hq.
Qed.

(** The amended C5 at a parametrised, auto-numbered test name. *)
Lemma normalize_idempotent_line_witness :
  ~ In LF (py "tests/x.py::test_foo_012[a-b]")
  /\ _normalize_test_name (_normalize_test_name (py "tests/x.py::test_foo_012[a-b]"))
     = _normalize_test_name (py "tests/x.py::test_foo_012[a-b]").
Proof.
  assert (H : ~ In LF (py "tests/x.py::test_foo_012[a-b]")).
  { now apply Normalizer.not_in_check. }
  split; [exact H | apply (normalize_idempotent_line _ H)].
Defined.

(** C5 as stated fails: with a line feed inside the last part, the first
    pass removes the second line and so bares a suffix that the second pass
    removes. *)
Lemma normalize_not_idempotent :
  _normalize_test_name (py "a_12" ++ [LF] ++ py "_34") = py "a_12" ++ [LF]
  /\ _normalize_test_name (_normalize_test_name (py "a_12" ++ [LF] ++ py "_34"))
     = py "a" ++ [LF]
  /\ _normalize_test_name (_normalize_test_name (py "a_12" ++ [LF] ++ py "_34"))
     <> _normalize_test_name (py "a_12" ++ [LF] ++ py "_34").
Proof. repeat split; vm_compute; congruence. Qed.

(** ** The model extractor *)

Module Extractor.

Import PyStrFacts.

(** Below [tests/models/] the first two segments are fixed and the third
    one is there. *)
Lemma split_tests_models (rest : str) :
  split (py "/") (py "tests/models/" ++ rest)
  = py "tests" :: py "models" :: split (py "/") rest.
Proof.
  rewrite (split_eq (py "/") (py "tests/models/" ++ rest)) by discriminate.
  change (split_once (py "/") (py "tests/models/" ++ rest))
    with (Some (py "tests", py "models/" ++ rest)).
  cbv beta iota.
  rewrite (split_eq (py "/") (py "models/" ++ rest)) by discriminate.
  change (split_once (py "/") (py "models/" ++ rest))
    with (Some (py "models", rest)).
  reflexivity.
Qed.

Lemma extract_below_prefix (test_node_id rest : str) :
  hd [] (split1 (py "::") test_node_id) = py "tests/models/" ++ rest ->
  _extract_model_name test_node_id = Some (hd [] (split (py "/") rest)).
Proof.
  intros H. unfold _extract_model_name. rewrite H, startswith_app.
  rewrite split_tests_models.
  destruct (split_snoc (py "/") rest ltac:(discriminate)) as [ps [q Hq]].
  rewrite Hq. destruct ps; reflexivity.
Qed.

Lemma hd_split_empty (sep s : str) :
  sep <> [] ->
  hd [] (split sep s) = [] <-> s = [] \/ startswith sep s = true.
Proof.
  intros Hsep. rewrite split_eq, split_once_eq by assumption.
  destruct (startswith sep s) eqn:E; simpl; [tauto|].
  destruct s as [|c s]; simpl; [tauto|].
  destruct (split_once sep s) as [[a b]|]; simpl;
    (split; [discriminate | intros [H|H]; discriminate]).
Qed.

Lemma extract_some (test_node_id m : str) :
  _extract_model_name test_node_id = Some m ->
  exists rest,
    hd [] (split1 (py "::") test_node_id) = py "tests/models/" ++ rest
    /\ m = hd [] (split (py "/") rest).
Proof.
  intros H. pose proof H as H'. unfold _extract_model_name in H'.
  destruct (startswith _ _) eqn:E; [|discriminate].
  apply startswith_iff in E as [rest Hrest]. exists rest.
  split; [assumption|].
  rewrite (extract_below_prefix _ _ Hrest) in H. congruence.
Qed.

End Extractor.

(** C6.  The model name is the third [/]-delimited segment of the text
    before the first [::], when that text starts with [tests/models/] and
    has three segments at least; otherwise it is absent.  The two examples
    of the design document come out as [bart] and as absent. *)
Theorem extract_model_name_third_segment (test_node_id : str) :
  (exists file_path parts,
     before_first (py "::") test_node_id file_path
     /\ join [slash] parts = file_path
     /\ Forall (fun p => ~ In slash p) parts
     /\ _extract_model_name test_node_id
        = if startswith (py "tests/models/") file_path && (3 <=? length parts)
          then nth_error parts 2 else None)
  /\ _extract_model_name
       (py "tests/models/bart/test_modeling_bart.py::TestBart::test_x")
     = Some (py "bart")
  /\ _extract_model_name (py "tests/other/test_x.py::test_y") = None.
Proof.
  split; [|split; reflexivity].
  exists (hd [] (split1 (py "::") test_node_id)).
  exists (split (py "/") (hd [] (split1 (py "::") test_node_id))).
  split; [apply PyStrFacts.split1_head|].
  destruct (PyStrFacts.split_char_segments slash
              (hd [] (split1 (py "::") test_node_id))) as [Hj Hf].
  repeat split; [exact Hj | exact Hf |].
  unfold _extract_model_name.
  destruct (startswith _ _); [|reflexivity]. rewrite andb_true_l.
  destruct (3 <=? length _) eqn:Hlen; [|reflexivity].
  apply Nat.leb_le in Hlen. symmetry. apply nth_error_nth'. lia.
Qed.

(** ** The summary parser *)

Module Parser.

(** [split()] returns no word exactly on a string of whitespace. *)
Lemma split_ws_from_nil (cur s : str) :
  split_ws_from cur s = [] <-> cur = [] /\ forallb isspace s = true.
Proof.
  revert cur; induction s as [|c s IH]; intros cur; simpl.
  - destruct cur; split; try tauto; try discriminate.
    intros [H _]. discriminate.
  - destruct (isspace c); simpl.
    + destruct cur; [apply IH|].
      split; [discriminate | intros [H _]; discriminate].
    + rewrite IH. split; [intros [H _]; discriminate | intros [_ H]; discriminate].
Qed.

(** A line raises exactly when nothing but whitespace follows its
    [FAILED ] prefix. *)
Lemma summary_line_raises (summary : dict str status) (line : str) :
  summary_line summary line = Raise IndexError
  <-> startswith (py "FAILED ") line = true
      /\ forallb isspace (skipn (length (py "FAILED ")) line) = true.
Proof.
  unfold summary_line.
  destruct (startswith (py "FAILED ") line) eqn:Ef.
  - apply PyStrFacts.startswith_iff in Ef as [w ->].
    change (startswith (py "PASSED ") (py "FAILED " ++ w)) with false.
    cbv iota. destruct (split_ws _) eqn:Ew.
    + apply split_ws_from_nil in Ew as [_ Ew]. tauto.
    + split; [discriminate|]. intros [_ H].
      assert (Hn : split_ws (skipn (length (py "FAILED ")) (py "FAILED " ++ w)) = [])
        by now apply split_ws_from_nil.
      congruence.
  - destruct (startswith (py "PASSED ") line);
      (split; [discriminate | intros [H _]; discriminate]).
Qed.

(** The correlation loop only appends. *)
Lemma correlate_line_appends (job : str) (details : list str)
    (idx : nat) (es : list FailureEntry) (line : str) :
  exists more,
    snd (correlate_line job details (idx, es) line) = es ++ more.
Proof.
  unfold correlate_line. destruct (reported_failure line).
  - destruct (partition _ _) as [[t sep] e]. simpl. eauto.
  - exists []. simpl. now rewrite app_nil_r.
Qed.

Lemma correlate_appends (job : str) (details lines : list str)
    (st : nat * list FailureEntry) :
  exists more,
    snd (fold_left (correlate_line job details) lines st) = snd st ++ more.
Proof.
  revert st; induction lines as [|line lines IH]; intros [idx es];
    cbn [fold_left snd].
  - exists []. now rewrite app_nil_r.
  - destruct (correlate_line_appends job details idx es line) as [m1 H1].
    destruct (IH (correlate_line job details (idx, es) line)) as [m2 H2].
    exists (m1 ++ m2). now rewrite H2, H1, app_assoc.
Qed.

(** What a reported line does to the state. *)
Lemma correlate_line_reported (job : str) (details : list str)
    (idx : nat) (es : list FailureEntry) (line : str) :
  reported_failure line = true ->
  exists e,
    correlate_line job details (idx, es) line = (idx + 1, es ++ [e])
    /\ job_name e = job
    /\ error e = match nth_error details idx with
                 | Some d => d
                 | None => short_error line
                 end.
Proof.
  intros H. unfold correlate_line, short_error. rewrite H.
  destruct (partition _ _) as [[t sep] e]. simpl.
  eexists. split; [reflexivity|]. split; [reflexivity|]. simpl.
  destruct (Nat.ltb_spec idx (length details)) as [Hlt|Hge].
  - now rewrite (nth_error_nth' details [] Hlt).
  - apply nth_error_None in Hge. now rewrite Hge.
Qed.

Lemma correlate_positional (job : str) (details lines : list str) :
  forall (idx : nat) (es : list FailureEntry) (n : nat) (line : str),
  nth_error (filter reported_failure lines) n = Some line ->
  exists e,
    nth_error (snd (fold_left (correlate_line job details) lines (idx, es)))
      (length es + n) = Some e
    /\ job_name e = job
    /\ error e = match nth_error details (idx + n) with
                 | Some d => d
                 | None => short_error line
                 end.
Proof.
  induction lines as [|l lines IH]; intros idx es n line Hn.
  - destruct n; discriminate.
  - cbn [filter] in Hn. cbn [fold_left].
    destruct (reported_failure l) eqn:El.
    + destruct (correlate_line_reported job details idx es l El)
        as (e & -> & Hjob & Herr).
      destruct n as [|n].
      * injection Hn as ->.
        destruct (correlate_appends job details lines (idx + 1, es ++ [e]))
          as [more ->].
        exists e. rewrite !Nat.add_0_r. split; [|auto].
        cbn [snd]. rewrite <- app_assoc.
        rewrite nth_error_app2 by lia. now rewrite Nat.sub_diag.
      * destruct (IH (idx + 1) (es ++ [e]) n line Hn) as (e' & H1 & H2 & H3).
        exists e'. rewrite length_app in H1. cbn [length] in H1.
        replace (length es + S n) with (length es + 1 + n) by lia.
        replace (idx + S n) with (idx + 1 + n) by lia. auto.
    + unfold correlate_line at 2. rewrite El. now apply IH.
Qed.

Lemma correlate_count (job : str) (details lines : list str) :
  forall (idx : nat) (es : list FailureEntry),
  length (snd (fold_left (correlate_line job details) lines (idx, es)))
  = length es + length (filter reported_failure lines).
Proof.
  induction lines as [|l lines IH]; intros idx es; cbn [fold_left filter].
  - simpl. lia.
  - destruct (reported_failure l) eqn:El.
    + destruct (correlate_line_reported job details idx es l El)
        as (e & -> & _).
      rewrite IH, length_app. simpl. lia.
    + unfold correlate_line at 2. rewrite El. apply IH.
Qed.

End Parser.

(** C1: the summary parser raises.  A line makes it raise [IndexError]
    exactly when the line starts with [FAILED ] and holds nothing but
    whitespace behind the prefix: [split()] has no first word to give.  So a
    summary block whose only line is the prefix, or one where such a line
    stands between well-formed lines, ends the parsing with the exception.
    The correlation loop, which reads the same line with [partition],
    passes over it and records an entry with an empty test name. *)
Theorem summary_parser_raises_index_error :
  (forall summary line,
     summary_line summary line = Raise IndexError
     <-> startswith (py "FAILED ") line = true
         /\ forallb isspace (skipn (length (py "FAILED ")) line) = true)
  /\ parse_summaries [(0%N, py "FAILED ")] = Raise IndexError
  /\ parse_summaries
       [(0%N, py "PASSED a::b" ++ [LF] ++ py "FAILED   " ++ [LF]
              ++ py "FAILED c::d - AssertionError")]
     = Raise IndexError
  /\ collect_failures (py "tests_torch") [(0%N, py "FAILED ")] [] []
     = [{| job_name := py "tests_torch"; test_name := []; error := [];
           model_name := None |}].
Proof.
  split; [exact Parser.summary_line_raises|].
  repeat split; reflexivity.
Qed.

(** C4, as amended.  The N-th summary line of a node that starts with
    [FAILED ] and does not hold [" - Failed: (subprocess)"] yields the N-th
    entry added for the node, and one entry is added for each such line.
    Its error is the N-th candidate of the node's failure-detail text: the
    lines of that text, each stripped of surrounding whitespace, of which
    those are kept, in order, that are not empty, start neither with [=]
    nor with [_], hold [": "] and do not start, in any letter case, with
    [short test summary].  When the candidates are used up, or the node has
    no failure-detail text, the error is the text after the first [" - "]
    of the line's content behind the [FAILED ] prefix, stripped of
    surrounding whitespace (empty when that content holds no [" - "]). *)
Theorem correlation_by_position (job : str) (job_failure_lines : dict N str)
    (failure_entries : list FailureEntry) (node_index : N) (summary_text : str)
    (n : nat) (line : str) :
  nth_error (filter reported_failure (splitlines summary_text)) n = Some line ->
  let candidates :=
    match dict_get N.eqb job_failure_lines node_index with
    | Some text =>
        filter
          (fun l =>
             match l with [] => false | _ :: _ => true end
             && negb (startswith (py "=") l || startswith (py "_") l)
             && contains (py ": ") l
             && negb (startswith (py "short test summary") (lower l)))
          (map strip (splitlines text))
    | None => []
    end in
  let entries :=
    collect_node job job_failure_lines failure_entries (node_index, summary_text) in
  length entries
  = length failure_entries
    + length (filter reported_failure (splitlines summary_text))
  /\ exists e,
       nth_error entries (length failure_entries + n) = Some e
       /\ error e
          = match nth_error candidates n with
            | Some detail => detail
            | None =>
                snd (partition (py " - ")
                       (strip (skipn (length (py "FAILED ")) line)))
            end.
Proof.
  intros Hn. cbv zeta. unfold collect_node. split.
  - apply Parser.correlate_count.
  - destruct (Parser.correlate_positional job
                (match dict_get N.eqb job_failure_lines node_index with
                 | Some text => failure_lines text
                 | None => []
                 end)
                (splitlines summary_text) 0 failure_entries n line Hn)
      as (e & H1 & _ & H3).
    exists e. split; [exact H1|]. rewrite H3. cbn [Nat.add].
    destruct (dict_get N.eqb job_failure_lines node_index); reflexivity.
Qed.

(** The amended C4 on a node whose detail text holds a separator, an
    indented message, a line without [": "], the banner and an underscore
    line, and whose summary holds two reported failures around a passed
    test and a subprocess failure: the first failure gets the stripped
    message, the one candidate; the second falls back to its short error. *)
Lemma correlation_by_position_witness :
  let detail_text :=
    py "==== FAILURES ====" ++ [LF] ++ py "  a.py:3: ValueError: boom  "
    ++ [LF] ++ py "no colon here" ++ [LF] ++ py "Short test summary info: x"
    ++ [LF] ++ py "_ under: y" in
  let summary_text :=
    py "FAILED a::b - E1" ++ [LF] ++ py "PASSED x::y" ++ [LF]
    ++ py "FAILED tests/x.py::test_y - Failed: (subprocess)" ++ [LF]
    ++ py "FAILED c::d - AssertionError " in
  let entries :=
    collect_node (py "job") [(0%N, detail_text)] [] (0%N, summary_text) in
  length entries = 2
  /\ (exists e,
        nth_error entries 0 = Some e
        /\ error e = py "a.py:3: ValueError: boom")
  /\ (exists e,
        nth_error entries 1 = Some e /\ error e = py "AssertionError").
Proof.
  pose (detail_text :=
    py "==== FAILURES ====" ++ [LF] ++ py "  a.py:3: ValueError: boom  "
    ++ [LF] ++ py "no colon here" ++ [LF] ++ py "Short test summary info: x"
    ++ [LF] ++ py "_ under: y").
  pose (summary_text :=
    py "FAILED a::b - E1" ++ [LF] ++ py "PASSED x::y" ++ [LF]
    ++ py "FAILED tests/x.py::test_y - Failed: (subprocess)" ++ [LF]
    ++ py "FAILED c::d - AssertionError ").
  split; [|split].
  - exact (proj1 (correlation_by_position (py "job") [(0%N, detail_text)] []
                    0%N summary_text 0 (py "FAILED a::b - E1") eq_refl)).
  - exact (proj2 (correlation_by_position (py "job") [(0%N, detail_text)] []
                    0%N summary_text 0 (py "FAILED a::b - E1") eq_refl)).
  - exact (proj2 (correlation_by_position (py "job") [(0%N, detail_text)] []
                    0%N summary_text 1 (py "FAILED c::d - AssertionError ")
                    eq_refl)).
Defined.

(** C4 as stated fails in both of its parts.  The error taken from the
    detail text is no line of that text: it is the line without the blanks
    around it.  And the fallback is not the text after the first [" - "] of
    the summary line itself: that text ends with a blank, which the entry's
    error has lost. *)
Lemma correlated_error_is_stripped :
  let detail_text := py "  a.py:3: ValueError: boom  " in
  let line1 := py "FAILED a::b - E1" in
  let line2 := py "FAILED t::x - boom " in
  let entries :=
    collect_node (py "job") [(0%N, detail_text)] []
      (0%N, line1 ++ [LF] ++ line2) in
  filter reported_failure (splitlines (line1 ++ [LF] ++ line2)) = [line1; line2]
  /\ splitlines detail_text = [detail_text]
  /\ map error entries = [py "a.py:3: ValueError: boom"; py "boom"]
  /\ ~ In (py "a.py:3: ValueError: boom") (splitlines detail_text)
  /\ snd (partition (py " - ") line2) = py "boom "
  /\ py "boom" <> snd (partition (py " - ") line2).
Proof.
  repeat split; try reflexivity.
  - intros [H|[]]. discriminate H.
  - discriminate.
Qed.

(** C7.  A summary line that starts with [FAILED ] and holds
    [" - Failed: (subprocess)"] leaves the state of the correlation loop as
    it is: no entry is added and [failure_idx] does not move, so the lines
    after it get the detail lines they would get without it. *)
Theorem subprocess_line_skipped (job : str) (failure_lines_list : list str)
    (st : nat * list FailureEntry) (line : str) (before after : list str) :
  startswith (py "FAILED ") line = true ->
  contains (py " - Failed: (subprocess)") line = true ->
  correlate_line job failure_lines_list st line = st
  /\ fold_left (correlate_line job failure_lines_list)
       (before ++ line :: after) st
     = fold_left (correlate_line job failure_lines_list) (before ++ after) st.
Proof.
  intros Hf Hs.
  assert (H : forall st', correlate_line job failure_lines_list st' line = st').
  { intros [idx es]. unfold correlate_line, reported_failure.
    now rewrite Hf, Hs. }
  split; [apply H|].
  rewrite !fold_left_app. simpl. now rewrite H.
Qed.

(** C7 on the line of the design document, between two reported failures. *)
Lemma subprocess_line_skipped_witness :
  let line := py "FAILED tests/x.py::test_y - Failed: (subprocess)" in
  let details := [py "a.py:1: E1"; py "b.py:2: E2"] in
  correlate_line (py "job") details (0, []) line = (0, [])
  /\ fold_left (correlate_line (py "job") details)
       ([py "FAILED a::b - x"] ++ line :: [py "FAILED c::d - y"]) (0, [])
     = fold_left (correlate_line (py "job") details)
         ([py "FAILED a::b - x"] ++ [py "FAILED c::d - y"]) (0, []).
Proof.
  exact (subprocess_line_skipped (py "job") [py "a.py:1: E1"; py "b.py:2: E2"]
           (0, []) (py "FAILED tests/x.py::test_y - Failed: (subprocess)")
           [py "FAILED a::b - x"] [py "FAILED c::d - y"] eq_refl eq_refl).
Defined.

(** ** Sorting by descending key *)

Module SortFacts.

Section Sort.

Variable A : Type.
Variable key : A -> nat.

Lemma insert_desc_perm (x : A) (l : list A) :
  Permutation (x :: l) (insert_desc key x l).
Proof.
  induction l as [|y l IH]; simpl; [reflexivity|].
  destruct (key x <? key y); [|reflexivity].
  rewrite perm_swap. now constructor.
Qed.

Lemma sorted_desc_perm (l : list A) : Permutation l (sorted_desc key l).
Proof.
  induction l as [|x l IH]; simpl; [reflexivity|].
  rewrite <- insert_desc_perm. now constructor.
Qed.

Lemma insert_desc_sorted (x : A) (l : list A) :
  StronglySorted (fun a b => key b <= key a) l ->
  StronglySorted (fun a b => key b <= key a) (insert_desc key x l).
Proof.
  induction 1 as [|y l Hs IH Hy]; simpl.
  - repeat constructor.
  - destruct (Nat.ltb_spec (key x) (key y)) as [Hlt|Hge].
    + constructor; [assumption|].
      eapply Permutation_Forall; [apply insert_desc_perm|].
      constructor; [lia | assumption].
    + constructor; [now constructor|].
      constructor; [assumption|].
      eapply Forall_impl; [|exact Hy]. simpl. intros. lia.
Qed.

Lemma sorted_desc_sorted (l : list A) :
  StronglySorted (fun a b => key b <= key a) (sorted_desc key l).
Proof.
  induction l as [|x l IH]; simpl; [constructor|].
  now apply insert_desc_sorted.
Qed.

(** The sort is stable: the elements of one key keep their order. *)
Lemma insert_desc_stable (c : nat) (x : A) (l : list A) :
  filter (fun a => key a =? c) (insert_desc key x l)
  = filter (fun a => key a =? c) (x :: l).
Proof.
  induction l as [|y l IH]; [reflexivity|]. cbn [insert_desc].
  destruct (Nat.ltb_spec (key x) (key y)) as [Hlt|Hge]; [|reflexivity].
  cbn [filter] in *. rewrite IH.
  destruct (Nat.eqb_spec (key x) c), (Nat.eqb_spec (key y) c);
    try reflexivity. lia.
Qed.

Lemma sorted_desc_stable (c : nat) (l : list A) :
  filter (fun a => key a =? c) (sorted_desc key l)
  = filter (fun a => key a =? c) l.
Proof.
  induction l as [|x l IH]; [reflexivity|]. simpl sorted_desc.
  rewrite insert_desc_stable. cbn [filter]. now rewrite IH.
Qed.

End Sort.

End SortFacts.

(** ** Dictionaries built key by key *)

Module DictFacts.

Import PyStrFacts.

Lemma in_first_seen (x : str) (l : list str) : In x (first_seen l) <-> In x l.
Proof.
  induction l as [|y l IH]; simpl; [tauto|].
  rewrite filter_In, IH. destruct (str_eqb_spec x y) as [->|Hxy]; simpl.
  - tauto.
  - split; [tauto|]. intros [H|H]; [congruence | auto].
Qed.

Lemma first_seen_nodup (l : list str) : NoDup (first_seen l).
Proof.
  induction l as [|y l IH]; simpl; constructor.
  - rewrite filter_In, str_eqb_refl. simpl. intros [_ H]. discriminate.
  - now apply NoDup_filter.
Qed.

Lemma existsb_str_in (x : str) (l : list str) :
  existsb (str_eqb x) l = true <-> In x l.
Proof.
  rewrite existsb_exists. split.
  - intros [y [Hy E]]. destruct (str_eqb_spec x y); congruence.
  - intros H. exists x. now rewrite str_eqb_refl.
Qed.

Lemma first_seen_snoc (l : list str) (x : str) :
  first_seen (l ++ [x])
  = if existsb (str_eqb x) l then first_seen l else first_seen l ++ [x].
Proof.
  induction l as [|y l IH]; [reflexivity|]. simpl. rewrite IH.
  destruct (str_eqb_spec x y) as [->|Hxy]; simpl.
  - destruct (existsb (str_eqb y) l); [reflexivity|].
    rewrite filter_app. simpl. rewrite str_eqb_refl. simpl.
    now rewrite app_nil_r.
  - destruct (existsb (str_eqb x) l); [reflexivity|].
    rewrite filter_app. simpl. now rewrite (str_eqb_neq x y Hxy).
Qed.

Section Upsert.

Variable V : Type.

Lemma upsert_map_in (g : str -> V) (L : list str) (k0 : str)
    (f : V -> V) (v0 : V) :
  NoDup L -> In k0 L ->
  upsert (map (fun k => (k, g k)) L) k0 f v0
  = map (fun k => (k, if str_eqb k k0 then f (g k) else g k)) L.
Proof.
  induction 1 as [|k L Hk Hnd IH]; intros Hin; [contradiction|].
  simpl. destruct (str_eqb_spec k k0) as [->|Hne].
  - f_equal. apply map_ext_in. intros k Hk'.
    rewrite str_eqb_neq; [reflexivity | congruence].
  - f_equal. apply IH. destruct Hin; [congruence | assumption].
Qed.

Lemma upsert_map_notin (g : str -> V) (L : list str) (k0 : str)
    (f : V -> V) (v0 : V) :
  ~ In k0 L ->
  upsert (map (fun k => (k, g k)) L) k0 f v0
  = map (fun k => (k, g k)) L ++ [(k0, v0)].
Proof.
  induction L as [|k L IH]; intros Hin; [reflexivity|].
  simpl in *. rewrite str_eqb_neq by tauto. f_equal. apply IH. tauto.
Qed.

Lemma dict_get_map (g : str -> V) (L : list str) (k0 : str) :
  dict_get str_eqb (map (fun k => (k, g k)) L) k0
  = if existsb (str_eqb k0) L then Some (g k0) else None.
Proof.
  induction L as [|k L IH]; [reflexivity|]. simpl.
  destruct (str_eqb_spec k k0) as [->|Hne].
  - now rewrite str_eqb_refl.
  - rewrite (str_eqb_neq k0 k) by congruence. exact IH.
Qed.

(** *** Grouping: a dictionary filled item by item holds, under each key
    in first-seen order, what the items of that key add up to. *)

Variable X : Type.
Variable key : X -> str.
Variable step : X -> V -> V.
Variable init : V.

Lemma group_value_snoc (k : str) (items : list X) (x : X) :
  group_value key step init k (items ++ [x])
  = if str_eqb (key x) k then step x (group_value key step init k items)
    else group_value key step init k items.
Proof.
  unfold group_value. rewrite filter_app. simpl.
  destruct (str_eqb (key x) k).
  - now rewrite fold_left_app.
  - now rewrite app_nil_r.
Qed.

Lemma group_value_absent (k : str) (items : list X) :
  ~ In k (map key items) -> group_value key step init k items = init.
Proof.
  unfold group_value. intros H.
  replace (filter (fun x => str_eqb (key x) k) items) with (@nil X);
    [reflexivity|].
  symmetry. induction items as [|x items IH]; [reflexivity|].
  simpl in *. rewrite str_eqb_neq by tauto. apply IH. tauto.
Qed.

Lemma grouping (items : list X) :
  fold_left (add_item key step init) items []
  = map (fun k => (k, group_value key step init k items)) (first_seen (map key items)).
Proof.
  induction items as [|x items IH] using rev_ind; [reflexivity|].
  rewrite fold_left_app, IH, map_app. cbn [map fold_left].
  rewrite first_seen_snoc. unfold add_item.
  destruct (existsb (str_eqb (key x)) (map key items)) eqn:E.
  - apply existsb_str_in in E.
    rewrite upsert_map_in by
      (auto using first_seen_nodup; now apply in_first_seen).
    apply map_ext. intros k. rewrite group_value_snoc.
    destruct (str_eqb_spec k (key x)) as [->|Hne].
    + now rewrite str_eqb_refl.
    + rewrite (str_eqb_neq (key x) k) by congruence. reflexivity.
  - assert (Hin : ~ In (key x) (map key items)).
    { rewrite <- existsb_str_in. congruence. }
    rewrite upsert_map_notin by now rewrite in_first_seen.
    rewrite map_app. simpl. f_equal.
    + apply map_ext_in. intros k Hk. rewrite group_value_snoc.
      rewrite in_first_seen in Hk.
      rewrite str_eqb_neq; [reflexivity | congruence].
    + rewrite group_value_snoc, str_eqb_refl.
      now rewrite (group_value_absent (key x) items Hin).
Qed.

End Upsert.

(** [dict(items)] of items with distinct keys is the list of the items. *)
Lemma dict_set_fresh (V : Type) (d : dict str V) (k : str) (v : V) :
  ~ In k (map fst d) -> dict_set str_eqb d k v = d ++ [(k, v)].
Proof.
  induction d as [|[k' v'] d IH]; intros H; [reflexivity|].
  simpl in *. rewrite str_eqb_neq by tauto. f_equal. apply IH. tauto.
Qed.

Lemma dict_of_items_distinct (V : Type) (items : list (str * V)) :
  NoDup (map fst items) -> dict_of_items str_eqb items = items.
Proof.
  unfold dict_of_items. change items with ([] ++ items) at 1 3.
  generalize (@nil (str * V)) as acc.
  induction items as [|[k v] items IH]; intros acc H; simpl.
  - now rewrite app_nil_r.
  - rewrite dict_set_fresh.
    + rewrite IH; rewrite <- app_assoc; [reflexivity | exact H].
    + rewrite map_app in H. simpl in H.
      apply NoDup_remove_2 in H. rewrite in_app_iff in H. tauto.
Qed.

End DictFacts.

(** ** The failure aggregator *)

Module Aggregator.

Import PyStrFacts DictFacts.

Lemma counter_incr_upsert (c : dict str nat) (k : str) :
  counter_incr c k = upsert c k S 1.
Proof.
  unfold counter_incr. induction c as [|[k' n] c IH]; [reflexivity|].
  simpl. destruct (str_eqb k' k).
  - now rewrite Nat.add_1_r.
  - now rewrite IH.
Qed.

Lemma record_failure_cons (k' : str) (g : Group) (d : dict str Group)
    (k err : str) :
  record_failure ((k', g) :: d) k err
  = if str_eqb k' k then (k', count_failure err g) :: d
    else (k', g) :: record_failure d k err.
Proof.
  unfold record_failure, dict_mem. simpl.
  destruct (str_eqb k' k) eqn:E.
  - simpl. rewrite E. simpl. now rewrite E.
  - destruct (dict_get str_eqb d k); simpl; rewrite E; simpl; now rewrite E.
Qed.

(** The three statements change the group under the key, or add it. *)
Lemma record_failure_upsert (d : dict str Group) (k err : str) :
  record_failure d k err
  = upsert d k (count_failure err) (count_failure err new_group).
Proof.
  induction d as [|[k' g] d IH].
  - unfold record_failure. simpl. rewrite str_eqb_refl. simpl.
    now rewrite str_eqb_refl.
  - rewrite record_failure_cons. simpl. now rewrite IH.
Qed.

Lemma aggregate_entry_eq (bt bm : dict str Group) (e : FailureEntry) :
  aggregate_entry (bt, bm) e
  = (add_item test_key (fun e => count_failure (error e)) new_group bt e,
     if model_nonempty e
     then add_item model_key (fun e => count_failure (error e)) new_group bm e
     else bm).
Proof.
  unfold aggregate_entry, add_item, model_nonempty, model_key, test_key.
  rewrite record_failure_upsert.
  destruct (model_name e) as [[|c m]|]; try reflexivity.
  now rewrite record_failure_upsert.
Qed.

(** The loop fills the two dictionaries independently. *)
Lemma aggregate_fold (es : list FailureEntry) (bt bm : dict str Group) :
  fold_left aggregate_entry es (bt, bm)
  = (fold_left (add_item test_key (fun e => count_failure (error e)) new_group)
       es bt,
     fold_left (add_item model_key (fun e => count_failure (error e)) new_group)
       (filter model_nonempty es) bm).
Proof.
  revert bt bm; induction es as [|e es IH]; intros bt bm; [reflexivity|].
  cbn [fold_left filter]. rewrite aggregate_entry_eq, IH.
  now destruct (model_nonempty e).
Qed.

Lemma count_failures_fold (items : list FailureEntry) (g : Group) :
  fold_left (fun v e => count_failure (error e) v) items g
  = {| count := count g + length items;
       errors := fold_left counter_incr (map error items) (errors g) |}.
Proof.
  revert g; induction items as [|e items IH]; intros g; simpl.
  - rewrite Nat.add_0_r. now destruct g.
  - rewrite IH. simpl. f_equal. lia.
Qed.

Lemma fold_left_pointwise (A B : Type) (f g : A -> B -> A) (l : list B) (a : A) :
  (forall a x, f a x = g a x) -> fold_left f l a = fold_left g l a.
Proof.
  intros H. revert a; induction l as [|x l IH]; intros a; simpl;
    [reflexivity | now rewrite H, IH].
Qed.

(** A [Counter] fed message by message is the tally of the messages. *)
Lemma counter_tally (msgs : list str) :
  fold_left counter_incr msgs [] = tally msgs.
Proof.
  pose proof (grouping nat str (fun m => m) (fun _ => S) 0 msgs) as H.
  rewrite map_id in H. unfold tally, occurrences.
  rewrite (fold_left_pointwise _ _ counter_incr
             (add_item (fun m => m) (fun _ => S) 0))
    by (intros c m; apply counter_incr_upsert).
  rewrite H. apply map_ext. intros m. f_equal. unfold group_value.
  generalize (filter (fun x => str_eqb x m) msgs) as l.
  intros l. rewrite <- (Nat.add_0_l (length l)). generalize 0.
  induction l as [|x l IH]; intros n; simpl; [lia|].
  rewrite IH. lia.
Qed.

(** The dictionary the loop builds from [entries] under [key]: one group
    for each key in first-seen order, with the number of its entries and the
    tally of their messages. *)
Lemma groups_built (key : FailureEntry -> str) (entries : list FailureEntry) :
  fold_left (add_item key (fun e => count_failure (error e)) new_group) entries []
  = map (fun k => (k, {| count := length (messages_under key k entries);
                         errors := tally (messages_under key k entries) |}))
      (first_seen (map key entries)).
Proof.
  rewrite grouping. apply map_ext. intros k. f_equal.
  unfold group_value. rewrite count_failures_fold. simpl.
  unfold messages_under. now rewrite counter_tally, length_map.
Qed.

Lemma tally_keys (msgs : list str) : map fst (tally msgs) = first_seen msgs.
Proof.
  unfold tally. rewrite map_map. simpl. apply map_id.
Qed.

(** Sorting a tally and making a [dict] of it keeps the sorted list. *)
Lemma sorted_tally_dict (msgs : list str) :
  dict_of_items str_eqb (most_common (tally msgs)) = sorted_desc snd (tally msgs).
Proof.
  unfold most_common. apply dict_of_items_distinct.
  eapply Permutation_NoDup.
  - apply Permutation_map. apply SortFacts.sorted_desc_perm.
  - rewrite tally_keys. apply first_seen_nodup.
Qed.

Lemma convert_groups (key : FailureEntry -> str) (entries : list FailureEntry) :
  convert_counters
    (fold_left (add_item key (fun e => count_failure (error e)) new_group)
       entries [])
  = map (fun k => (k, {| count := length (messages_under key k entries);
                         errors := sorted_desc snd
                                     (tally (messages_under key k entries)) |}))
      (first_seen (map key entries)).
Proof.
  rewrite groups_built. unfold convert_counters. rewrite map_map.
  apply map_ext. intros k. simpl. now rewrite sorted_tally_dict.
Qed.

(** The two results of the aggregator. *)
Lemma aggregate_failures_eq (es : list FailureEntry) :
  _aggregate_failures es
  = (map (fun k => (k, {| count := length (messages_under test_key k es);
                          errors := sorted_desc snd
                                      (tally (messages_under test_key k es)) |}))
       (first_seen (map test_key es)),
     map (fun k =>
            (k, {| count := length (messages_under model_key k
                                      (filter model_nonempty es));
                   errors := sorted_desc snd
                               (tally (messages_under model_key k
                                         (filter model_nonempty es))) |}))
       (first_seen (map model_key (filter model_nonempty es)))).
Proof.
  unfold _aggregate_failures. rewrite aggregate_fold.
  now rewrite !convert_groups.
Qed.

(** *** Counts *)

Lemma sum_counts_upsert (d : dict str Group) (k err : str) :
  sum_counts (upsert d k (count_failure err) (count_failure err new_group))
  = sum_counts d + 1.
Proof.
  induction d as [|[k' g] d IH]; [reflexivity|]. simpl.
  destruct (str_eqb k' k); simpl; [|rewrite IH]; lia.
Qed.

Lemma sum_counts_fold (key : FailureEntry -> str) (es : list FailureEntry)
    (d : dict str Group) :
  sum_counts
    (fold_left (add_item key (fun e => count_failure (error e)) new_group) es d)
  = sum_counts d + length es.
Proof.
  revert d; induction es as [|e es IH]; intros d; simpl; [lia|].
  rewrite IH. unfold add_item. rewrite sum_counts_upsert. lia.
Qed.

Lemma sum_counts_convert (d : dict str Group) :
  sum_counts (convert_counters d) = sum_counts d.
Proof.
  induction d as [|[k g] d IH]; [reflexivity|]. simpl. now rewrite IH.
Qed.

Lemma count_under_groups (f : str -> Group) (L : list str) (k : str) :
  (~ In k L -> count (f k) = 0) ->
  count_under (map (fun k => (k, f k)) L) k = count (f k).
Proof.
  intros H. unfold count_under. rewrite dict_get_map.
  destruct (existsb (str_eqb k) L) eqn:E; [reflexivity|].
  symmetry. apply H. rewrite <- existsb_str_in. congruence.
Qed.

Lemma no_messages (key : FailureEntry -> str) (k : str) (es : list FailureEntry) :
  ~ In k (map key es) -> messages_under key k es = [].
Proof.
  unfold messages_under. induction es as [|e es IH]; [reflexivity|].
  simpl. intros H. rewrite str_eqb_neq by tauto. apply IH. tauto.
Qed.

Lemma has_model_key (m : str) (e : FailureEntry) :
  model_nonempty e = true -> has_model m e = str_eqb (model_key e) m.
Proof.
  unfold model_nonempty, has_model, model_key.
  destruct (model_name e) as [[|c m']|]; try discriminate; reflexivity.
Qed.

(** The entries under a by-model key are those that have that model name
    and a non-empty one. *)
Lemma model_entries (m : str) (es : list FailureEntry) :
  filter (fun e => str_eqb (model_key e) m) (filter model_nonempty es)
  = filter (fun e => has_model m e && model_nonempty e) es.
Proof.
  induction es as [|e es IH]; [reflexivity|]. cbn [filter].
  destruct (model_nonempty e) eqn:En.
  - cbn [filter]. now rewrite (has_model_key m e En), andb_true_r, IH.
  - now rewrite andb_false_r.
Qed.

(** *** The order of the errors *)

Lemma filter_tally (msgs L : list str) (c : nat) :
  map fst (filter (fun mc => snd mc =? c)
             (map (fun m => (m, occurrences m msgs)) L))
  = filter (fun m => occurrences m msgs =? c) L.
Proof.
  induction L as [|m L IH]; [reflexivity|]. simpl.
  destruct (occurrences m msgs =? c); simpl; now rewrite IH.
Qed.

Lemma in_tally (msgs : list str) (m : str) (n : nat) :
  In (m, n) (tally msgs) <-> In m msgs /\ n = occurrences m msgs.
Proof.
  unfold tally. rewrite in_map_iff. split.
  - intros (m' & [= -> <-] & Hin). now rewrite <- in_first_seen.
  - intros [Hin ->]. exists m. now rewrite in_first_seen.
Qed.

Lemma sorted_tally_order (msgs : list str) :
  by_descending_count msgs (sorted_desc snd (tally msgs)).
Proof.
  split; [apply SortFacts.sorted_desc_sorted|]. split.
  - intros m n. rewrite <- in_tally. split; apply Permutation_in.
    + symmetry. apply SortFacts.sorted_desc_perm.
    + apply SortFacts.sorted_desc_perm.
  - intros c. rewrite SortFacts.sorted_desc_stable. apply filter_tally.
Qed.

Lemma in_groups (f : str -> Group) (L : list str) (k : str) (info : Group) :
  In (k, info) (map (fun k => (k, f k)) L) -> info = f k.
Proof.
  rewrite in_map_iff. intros (k' & [= -> <-] & _). reflexivity.
Qed.

End Aggregator.

(** C3, as amended.  The counts of the by-test groups add up to the number
    of entries, and the counts of the by-model groups add up to the number
    of entries whose model name is present and not empty. *)
Theorem aggregate_counts_sum (failure_entries : list FailureEntry) :
  sum_counts (fst (_aggregate_failures failure_entries))
  = length failure_entries
  /\ sum_counts (snd (_aggregate_failures failure_entries))
     = length (filter model_nonempty failure_entries).
Proof.
  unfold _aggregate_failures. rewrite Aggregator.aggregate_fold. simpl.
  now rewrite !Aggregator.sum_counts_convert, !Aggregator.sum_counts_fold.
Qed.

(** C3 as stated fails.  The summary line below yields an entry whose model
    name is present and empty; it is one entry with a present model name,
    and the by-model counts add up to 0. *)
Lemma by_model_sum_misses_empty_model :
  let entries :=
    collect_failures (py "tests_torch")
      [(0%N, py "FAILED tests/models//test_x.py::test_y - boom")] [] [] in
  map model_name entries = [Some []]
  /\ length (filter model_present entries) = 1
  /\ sum_counts (fst (_aggregate_failures entries)) = 1
  /\ sum_counts (snd (_aggregate_failures entries)) = 0.
Proof. repeat split; reflexivity. Qed.

(** C9, as amended.  The extractor returns absent, or the third segment of
    a path below [tests/models/]; that name is the empty string exactly when
    the path is [tests/models/] itself or goes on with a second [/].  The
    by-model mapping has a group for the model names that are present and
    not empty, and for those only, and each group counts the entries of its
    name: the entries left out are those whose model name is absent or
    empty. *)
Theorem model_name_absent_or_segment :
  (forall test_node_id,
     _extract_model_name test_node_id = None
     \/ exists rest,
          hd [] (split1 (py "::") test_node_id) = py "tests/models/" ++ rest
          /\ _extract_model_name test_node_id
             = Some (hd [] (split (py "/") rest)))
  /\ (forall test_node_id,
        _extract_model_name test_node_id = Some []
        <-> exists rest,
              hd [] (split1 (py "::") test_node_id) = py "tests/models/" ++ rest
              /\ (rest = [] \/ startswith (py "/") rest = true))
  /\ (forall failure_entries m,
        dict_mem str_eqb m (snd (_aggregate_failures failure_entries)) = true
        <-> exists e,
              In e failure_entries /\ model_name e = Some m /\ m <> [])
  /\ (forall failure_entries m,
        count_under (snd (_aggregate_failures failure_entries)) m
        = length (filter (fun e => has_model m e && model_nonempty e)
                    failure_entries)).
Proof.
  split; [|split; [|split]].
  - intros id. destruct (_extract_model_name id) as [m|] eqn:E; [|now left].
    right. destruct (Extractor.extract_some id m E) as (rest & H1 & H2).
    exists rest. split; [exact H1 | now rewrite H2].
  - intros id. split.
    + intros E. destruct (Extractor.extract_some id [] E) as (rest & H1 & H2).
      exists rest. split; [assumption|].
      apply Extractor.hd_split_empty; [discriminate | congruence].
    + intros (rest & H1 & H2).
      rewrite (Extractor.extract_below_prefix _ _ H1). f_equal.
      apply Extractor.hd_split_empty; [discriminate | assumption].
  - intros es m. rewrite Aggregator.aggregate_failures_eq. cbn [snd].
    unfold dict_mem. rewrite DictFacts.dict_get_map.
    transitivity (In m (map model_key (filter model_nonempty es))).
    + rewrite <- DictFacts.in_first_seen, <- DictFacts.existsb_str_in.
      destruct (existsb _ _); split; congruence.
    + rewrite in_map_iff. split.
      * intros (e & Hk & Hin). apply filter_In in Hin as [Hin Hne].
        exists e. unfold model_key in Hk. unfold model_nonempty in Hne.
        destruct (model_name e) as [[|c m']|]; try discriminate.
        subst m. repeat split; [assumption | discriminate].
      * intros (e & Hin & Hm & Hne). exists e.
        unfold model_key. rewrite Hm. split; [reflexivity|].
        apply filter_In. split; [assumption|].
        unfold model_nonempty. rewrite Hm. destruct m; congruence.
  - intros es m. rewrite Aggregator.aggregate_failures_eq. cbn [snd].
    rewrite Aggregator.count_under_groups; cbn [count].
    + unfold messages_under.
      now rewrite length_map, Aggregator.model_entries.
    + intros H. rewrite DictFacts.in_first_seen in H.
      now rewrite (Aggregator.no_messages _ _ _ H).
Qed.

(** C9 as stated fails on both counts: the extractor returns the empty
    string for a path with an empty third segment, and the entry made from
    such a test, whose model name is present, is left out of by-model. *)
Lemma extractor_returns_empty_name :
  _extract_model_name (py "tests/models//test_x.py::test_y") = Some []
  /\ _extract_model_name (py "tests/models/") = Some []
  /\ snd (_aggregate_failures
            [{| job_name := py "tests_torch";
                test_name := py "tests/models//test_x.py::test_y";
                error := py "boom";
                model_name :=
                  _extract_model_name (py "tests/models//test_x.py::test_y") |}])
     = [].
Proof. repeat split; reflexivity. Qed.

(** C10.  If the by-model mapping of the aggregator is not empty, neither
    is its by-test mapping; so on the aggregator's results the report, which
    tests by-test alone, is the report that tests both mappings. *)
Theorem by_model_nonempty_implies_by_test (failure_entries : list FailureEntry) :
  (snd (_aggregate_failures failure_entries) <> [] ->
   fst (_aggregate_failures failure_entries) <> [])
  /\ _create_markdown_report (fst (_aggregate_failures failure_entries))
       (snd (_aggregate_failures failure_entries))
     = _create_markdown_report_spec (fst (_aggregate_failures failure_entries))
         (snd (_aggregate_failures failure_entries)).
Proof.
  assert (H : snd (_aggregate_failures failure_entries) <> [] ->
              fst (_aggregate_failures failure_entries) <> []).
  { rewrite Aggregator.aggregate_failures_eq. cbn [fst snd].
    destruct failure_entries as [|e es]; [intros H; now elim H|].
    intros _. discriminate. }
  split; [exact H|].
  unfold _create_markdown_report, _create_markdown_report_spec.
  unfold report_lines, report_lines_spec.
  destruct (fst (_aggregate_failures failure_entries)) as [|kg bt];
    [|reflexivity].
  destruct (snd (_aggregate_failures failure_entries)) as [|kg bm];
    [reflexivity|].
  exfalso. apply H; [discriminate | reflexivity].
Qed.

(** C10 on one failure of a model test. *)
Lemma by_model_nonempty_implies_by_test_witness :
  let entries :=
    [{| job_name := py "tests_torch";
        test_name := py "tests/models/bart/test_modeling_bart.py::TestBart::test_x";
        error := py "AssertionError"; model_name := Some (py "bart") |}] in
  snd (_aggregate_failures entries) <> []
  /\ fst (_aggregate_failures entries) <> [].
Proof.
  assert (H : snd (_aggregate_failures
                     [{| job_name := py "tests_torch";
                         test_name :=
                           py "tests/models/bart/test_modeling_bart.py::TestBart::test_x";
                         error := py "AssertionError";
                         model_name := Some (py "bart") |}]) <> [])
    by discriminate.
  split; [exact H|].
  exact (proj1 (by_model_nonempty_implies_by_test _) H).
Defined.

(** C8.  In every group of the two mappings of the aggregator the errors
    are in the order of descending count, every count is the number of the
    group's entries with that message, and the messages of one count stand
    in the order in which they were first met among the group's entries. *)
Theorem errors_by_descending_count (failure_entries : list FailureEntry)
    (k : str) (info : Group) :
  (In (k, info) (fst (_aggregate_failures failure_entries)) ->
   by_descending_count (messages_under test_key k failure_entries)
     (errors info))
  /\ (In (k, info) (snd (_aggregate_failures failure_entries)) ->
      by_descending_count
        (map error
           (filter (fun e => has_model k e && model_nonempty e) failure_entries))
        (errors info)).
Proof.
  rewrite Aggregator.aggregate_failures_eq. cbn [fst snd]. split; intros H;
    apply Aggregator.in_groups in H; subst info; cbn [errors].
  - apply Aggregator.sorted_tally_order.
  - rewrite <- Aggregator.model_entries.
    apply (Aggregator.sorted_tally_order
             (messages_under model_key k (filter model_nonempty failure_entries))).
Qed.

(** C8 on four failures of one test of one model, with the messages
    [A], [B], [B], [C]: [B] comes first, then [A] before [C]. *)
Lemma errors_by_descending_count_witness :
  let entry msg :=
    {| job_name := py "tests_torch";
       test_name := py "tests/models/bart/test_modeling_bart.py::test_x";
       error := msg; model_name := Some (py "bart") |} in
  let errs := [(py "B", 2); (py "A", 1); (py "C", 1)] in
  by_descending_count [py "A"; py "B"; py "B"; py "C"] errs
  /\ by_descending_count [py "A"; py "B"; py "B"; py "C"] errs.
Proof.
  pose (entry := fun msg =>
    {| job_name := py "tests_torch";
       test_name := py "tests/models/bart/test_modeling_bart.py::test_x";
       error := msg; model_name := Some (py "bart") |}).
  pose (es := [entry (py "A"); entry (py "B"); entry (py "B"); entry (py "C")]).
  pose (errs := [(py "B", 2); (py "A", 1); (py "C", 1)]).
  split.
  - exact (proj1 (errors_by_descending_count es
                    (py "tests/models/bart/test_modeling_bart.py::test_x")
                    {| count := 4; errors := errs |})
             (or_introl eq_refl)).
  - exact (proj2 (errors_by_descending_count es (py "bart")
                    {| count := 4; errors := errs |})
             (or_introl eq_refl)).
Defined.

(** ** The report renderer *)

Module Renderer.

Lemma row_starts_with_bar (d : dict str Group) (r : str) :
  In r (table_rows d) -> exists t, r = 124%N :: t.
Proof.
  unfold table_rows. rewrite in_map_iff. intros (ki & <- & _).
  eexists. reflexivity.
Qed.

Lemma table_rows_length (d : dict str Group) :
  length (table_rows d) = length d.
Proof.
  unfold table_rows. rewrite length_map. symmetry.
  apply Permutation_length, SortFacts.sorted_desc_perm.
Qed.

(** A line that does not start with a bar is a line of the tables only if
    it is one of the two headings. *)
Lemma in_tables (x : str) (bt bm : dict str Group) :
  (forall t, x <> 124%N :: t) -> x <> [] ->
  x <> py "# Failure summary" ++ [LF] ->
  In x ([py "# Failure summary" ++ [LF]]
        ++ [by_test_heading; py "| Test | Failures | Error(s) |";
            py "| --- | --- | --- |"]
        ++ table_rows bt ++ [[]]
        ++ [by_model_heading; py "| Model | Failures | Error(s) |";
            py "| --- | --- | --- |"]
        ++ table_rows bm)
  <-> x = by_test_heading \/ x = by_model_heading.
Proof.
  intros Hbar Hnil Htitle. rewrite !in_app_iff. simpl. split.
  - intros [[H|[]] | [[H|[H|[H|[]]]] | [H | [[H|[]] | [[H|[H|[H|[]]]] | H]]]]];
      auto; try (symmetry in H; contradiction);
      try (symmetry in H; now apply Hbar in H);
      try (apply row_starts_with_bar in H as [t ->]; now elim (Hbar t)).
  - intros [->| ->]; auto 10.
Qed.

End Renderer.

(** C2, as amended.  The report holds the sentence "No failures were
    reported." and no table exactly when the by-test mapping is empty,
    whatever the by-model mapping holds.  When by-test is not empty the
    report holds the two tables, "By test" first and "By model" second, each
    with one row for each group of its mapping. *)
Theorem report_tables_iff_by_test (failures_by_test failures_by_model : dict str Group) :
  (In no_failures_line (report_lines failures_by_test failures_by_model)
   <-> failures_by_test = [])
  /\ (In by_test_heading (report_lines failures_by_test failures_by_model)
      <-> failures_by_test <> [])
  /\ (In by_model_heading (report_lines failures_by_test failures_by_model)
      <-> failures_by_test <> [])
  /\ report_lines [] failures_by_model
     = [py "# Failure summary" ++ [LF]; no_failures_line]
  /\ (forall kg rest,
        report_lines (kg :: rest) failures_by_model
        = [py "# Failure summary" ++ [LF]; by_test_heading;
           py "| Test | Failures | Error(s) |"; py "| --- | --- | --- |"]
          ++ table_rows (kg :: rest)
          ++ [[]; by_model_heading;
              py "| Model | Failures | Error(s) |"; py "| --- | --- | --- |"]
          ++ table_rows failures_by_model)
  /\ length (table_rows failures_by_test) = length failures_by_test
  /\ length (table_rows failures_by_model) = length failures_by_model
  /\ _create_markdown_report failures_by_test failures_by_model
     = join [LF] (report_lines failures_by_test failures_by_model).
Proof.
  assert (Hno : forall (h : str) bm,
            (forall t, h <> 124%N :: t) -> h <> [] ->
            h <> py "# Failure summary" ++ [LF] ->
            forall bt,
              In h (report_lines bt bm)
              <-> match bt with
                  | [] => h = no_failures_line
                  | _ :: _ => h = by_test_heading \/ h = by_model_heading
                  end).
  { intros h bm H1 H2 H3 [|kg bt].
    - change (In h [py "# Failure summary" ++ [LF]; no_failures_line]
              <-> h = no_failures_line).
      split.
      + intros [H|[H|[]]]; [now elim H3 | now symmetry].
      + intros ->. right. now left.
    - unfold report_lines. now apply Renderer.in_tables. }
  repeat split; try reflexivity; try apply Renderer.table_rows_length.
  - intros H. apply Hno in H; try discriminate.
    destruct failures_by_test; [reflexivity|].
    destruct H; discriminate.
  - intros ->. simpl. auto.
  - intros H ->. simpl in H. destruct H as [H|[H|[]]]; discriminate.
  - intros H. destruct failures_by_test; [congruence|].
    apply Hno; try discriminate. now left.
  - intros H ->. simpl in H. destruct H as [H|[H|[]]]; discriminate.
  - intros H. destruct failures_by_test; [congruence|].
    apply Hno; try discriminate. now right.
Qed.

(** C2 as stated fails: for an empty by-test mapping and a by-model mapping
    with one group the report is the "no failures" sentence, and there is no
    "By model" table. *)
Lemma no_by_model_table_without_by_test :
  let by_model :=
    [(py "bart", {| count := 1; errors := [(py "boom", 1)] |})] in
  by_model <> []
  /\ _create_markdown_report [] by_model
     = py "# Failure summary" ++ [LF; LF] ++ py "No failures were reported."
       ++ [LF]
  /\ ~ In by_model_heading (report_lines [] by_model).
Proof.
  repeat split; try discriminate.
  simpl. intros [H|[H|[]]]; discriminate.
Qed.

(** * Further properties of the code *)

(** ** More on strings *)

Module PyStrMore.

Import PyStrFacts.

(** A prefix that does not hold the first character of [sep] is passed
    over by the search for [sep]. *)
Lemma split_once_skip (c : char) (sep' u v : str) :
  ~ In c u ->
  split_once (c :: sep') (u ++ v)
  = match split_once (c :: sep') v with
    | Some (a, b) => Some (u ++ a, b)
    | None => None
    end.
Proof.
  induction u as [|y u IH]; intros H.
  - simpl. now destruct (split_once (c :: sep') v) as [[a b]|].
  - simpl in H. rewrite <- app_comm_cons, split_once_eq.
    assert (Hc : c <> y) by (intros ->; apply H; now left).
    cbn [startswith]. rewrite (proj2 (N.eqb_neq c y) Hc).
    cbn [andb]. rewrite IH by tauto.
    now destruct (split_once (c :: sep') v) as [[a b]|].
Qed.

Lemma split1_hd_skip (c : char) (sep' u v : str) :
  ~ In c u ->
  hd [] (split1 (c :: sep') (u ++ v)) = u ++ hd [] (split1 (c :: sep') v).
Proof.
  intros H. unfold split1. rewrite split_once_skip by assumption.
  now destruct (split_once (c :: sep') v) as [[a b]|].
Qed.

Lemma split_once_free (c : char) (sep' u : str) :
  ~ In c u -> split_once (c :: sep') u = None.
Proof.
  intros H. rewrite <- (app_nil_r u), split_once_skip by assumption.
  reflexivity.
Qed.

Lemma split_once_char_at (c : char) (u v : str) :
  ~ In c u -> split_once [c] (u ++ [c] ++ v) = Some (u, v).
Proof.
  intros H. rewrite split_once_skip by assumption.
  simpl. rewrite N.eqb_refl. simpl. now rewrite app_nil_r.
Qed.

Lemma split_once_app_some (sep a p b x : str) :
  split_once sep a = Some (p, b) ->
  split_once sep (a ++ x) = Some (p, b ++ x).
Proof.
  intros H. pose proof (split_once_some _ _ _ _ H) as ->.
  rewrite <- !app_assoc. exact (split_once_stable sep _ p b (b ++ x) H).
Qed.

(** Appending a text that holds no separator and does not start with its
    second character makes no new occurrence of a separator of two
    characters. *)
Lemma split_once_app_none (c1 c2 : char) (a x : str) :
  split_once [c1; c2] a = None ->
  split_once [c1; c2] x = None ->
  (forall x', x <> c2 :: x') ->
  split_once [c1; c2] (a ++ x) = None.
Proof.
  intros Ha Hx Hc. induction a as [|y a IH]; [exact Hx|].
  rewrite split_once_eq in Ha. rewrite <- app_comm_cons, split_once_eq.
  destruct (startswith [c1; c2] (y :: a)) eqn:E; [discriminate|].
  destruct (split_once [c1; c2] a) as [[p b]|] eqn:Ea; [discriminate|].
  rewrite IH by reflexivity.
  destruct a as [|z a].
  - simpl. destruct x as [|z x]; simpl.
    + now rewrite andb_false_r.
    + destruct (N.eqb_spec c2 z) as [->|_].
      * now elim (Hc x).
      * now rewrite andb_false_r.
  - simpl in E |- *. now rewrite E.
Qed.

(** The parts of [s ++ x] are those of [s] with [x] added to the last,
    when [x] brings no separator. *)
Lemma split_app_last (c1 c2 : char) (s x : str) (ps : list str) (q : str) :
  split_once [c1; c2] x = None ->
  (forall x', x <> c2 :: x') ->
  split [c1; c2] s = ps ++ [q] ->
  split [c1; c2] (s ++ x) = ps ++ [q ++ x].
Proof.
  intros Hx Hc. assert (Hsep : [c1; c2] <> []) by discriminate.
  revert ps. induction s as [s E | s a b E IH] using (split_ind _ Hsep);
    intros ps; rewrite (split_eq _ s), E by assumption; intros Hs.
  - destruct ps as [|p ps]; [|destruct ps; discriminate].
    injection Hs as <-.
    now rewrite split_eq, (split_once_app_none c1 c2 s x E Hx Hc).
  - destruct ps as [|p ps].
    + destruct (split_snoc _ b Hsep) as [ps' [q0 Hb]]. rewrite Hb in Hs.
      destruct ps'; discriminate.
    + injection Hs as -> Hb.
      rewrite split_eq, (split_once_app_some _ _ _ _ x E) by assumption.
      now rewrite (IH _ Hb).
Qed.

(** [strip()] leaves no whitespace at either end, so a second [strip()]
    changes nothing. *)
Lemma lstrip_fixed (s : str) :
  match s with c :: _ => isspace c = false | [] => True end -> lstrip s = s.
Proof. destruct s as [|c s]; [reflexivity|]. simpl. now intros ->. Qed.

Lemma lstrip_head (s : str) :
  match lstrip s with c :: _ => isspace c = false | [] => True end.
Proof.
  induction s as [|c s IH]; simpl; [exact I|].
  destruct (isspace c) eqn:E; [exact IH | exact E].
Qed.

Lemma lstrip_lstrip (s : str) : lstrip (lstrip s) = lstrip s.
Proof. apply lstrip_fixed, lstrip_head. Qed.

Lemma lstrip_suffix (s : str) : exists w, s = w ++ lstrip s.
Proof.
  induction s as [|c s [w IH]]; [now exists []|]. simpl.
  destruct (isspace c); [|now exists []].
  exists (c :: w). simpl. now f_equal.
Qed.

(** Stripping the right end keeps the left end free of whitespace. *)
Lemma rstrip_keeps_head (s : str) :
  match s with c :: _ => isspace c = false | [] => True end ->
  match rstrip s with c :: _ => isspace c = false | [] => True end.
Proof.
  unfold rstrip. intros H.
  destruct (lstrip_suffix (rev s)) as [w Hw].
  assert (Hs : s = rev (lstrip (rev s)) ++ rev w).
  { rewrite <- rev_app_distr, <- Hw. now rewrite rev_involutive. }
  destruct (rev (lstrip (rev s))) as [|c t]; [exact I|].
  rewrite Hs in H. exact H.
Qed.

Lemma strip_strip (s : str) : strip (strip s) = strip s.
Proof.
  unfold strip.
  rewrite (lstrip_fixed (rstrip (lstrip s)))
    by apply rstrip_keeps_head, lstrip_head.
  unfold rstrip. now rewrite rev_involutive, lstrip_lstrip.
Qed.

End PyStrMore.

(** ** More on the name normaliser *)

Module NormalizerMore.

Import PyStrFacts PyStrMore Normalizer.

(** The substitution only removes characters. *)
Lemma re_sub_from_subset (x : char) (s : str) (k : nat) :
  In x (re_sub_from k s) -> In x s.
Proof.
  revert k; induction s as [|c s IH]; intros k; [tauto|].
  cbn [re_sub_from]. destruct k as [|k].
  - destruct (match_suffix (c :: s)) as [len|].
    + intros H. right. exact (IH _ H).
    + intros [H|H]; [now left | right; exact (IH _ H)].
  - intros H. right. exact (IH _ H).
Qed.

Lemma join_last_subset (sep : str) (ps : list str) (q q' : str) (x : char) :
  (In x q' -> In x q) ->
  In x (join sep (ps ++ [q'])) -> In x (join sep (ps ++ [q])).
Proof.
  intros Hq.
  rewrite <- (app_nil_l q'), <- (app_nil_l q), !join_snoc_app, !in_app_iff.
  tauto.
Qed.

Lemma normalize_subset_base (s : str) (x : char) :
  In x (_normalize_test_name s) -> In x (hd [] (split1 (py "[") s)).
Proof.
  destruct (split_snoc (py "::") (hd [] (split1 (py "[") s)) sep_colons)
    as [ps [q Hsplit]].
  rewrite (normalize_parts s ps q Hsplit).
  rewrite <- (join_split (py "::") (hd [] (split1 (py "[") s)) sep_colons).
  rewrite Hsplit. apply join_last_subset. apply re_sub_from_subset.
Qed.

Lemma base_name_free (s : str) :
  ~ In bracket s -> hd [] (split1 (py "[") s) = s.
Proof.
  intros H. unfold split1.
  change (py "[") with [bracket]. now rewrite split_once_free.
Qed.

Lemma decimal_not (c d : char) :
  isdecimal c = false -> isdecimal d = true -> d <> c.
Proof. intros Hc Hd ->. congruence. Qed.

(** A numbered suffix appended to a part is cut together with what the
    part already loses. *)
Lemma cut_app_suffix (q r : str) (d1 d2 : char) :
  isdecimal d1 = true -> isdecimal d2 = true ->
  cut_numeric_suffix (q ++ underscore :: d1 :: d2 :: r) = cut_numeric_suffix q.
Proof.
  intros H1 H2. induction q as [|c q IH].
  - simpl. rewrite H1, H2. reflexivity.
  - rewrite <- app_comm_cons. cbn [cut_numeric_suffix]. rewrite IH.
    replace (numeric_suffix_here (c :: q ++ underscore :: d1 :: d2 :: r))
      with (numeric_suffix_here (c :: q)); [reflexivity|].
    destruct q as [|y [|z q]]; simpl; try reflexivity.
    + change (isdecimal underscore) with false.
      now rewrite andb_false_r.
    + change (isdecimal underscore) with false.
      now rewrite !andb_false_r.
Qed.

End NormalizerMore.

(** X1.  The normaliser only removes characters, and its result holds no
    opening bracket. *)
Theorem normalize_removes_only (s : str) (x : char) :
  In x (_normalize_test_name s) -> In x s /\ x <> bracket.
Proof.
  intros H. apply NormalizerMore.normalize_subset_base in H.
  destruct (Normalizer.base_name_spec s) as [Hb [r Hr]]. split.
  - rewrite Hr. apply in_or_app. now left.
  - intros ->. revert H. now apply PyStrFacts.split_once_char.
Qed.

Lemma normalize_removes_only_witness :
  In 116%N (_normalize_test_name (py "t.py::test_a_01[x]"))
  /\ In 116%N (py "t.py::test_a_01[x]") /\ 116%N <> bracket.
Proof.
  assert (H : In 116%N (_normalize_test_name (py "t.py::test_a_01[x]")))
    by (now left).
  split; [exact H | exact (normalize_removes_only _ _ H)].
Defined.

(** X2.  On a name without line feed the normaliser cuts the name short:
    its result is a prefix of the name. *)
Theorem normalize_prefix (s : str) :
  ~ In LF s -> exists r, s = _normalize_test_name s ++ r.
Proof.
  intros Hs.
  destruct (Normalizer.normalize_line s Hs) as (ps & q & Hsplit & Hq & Hb & Hn).
  destruct (Normalizer.base_name_spec s) as [_ [r2 Hr2]].
  destruct (Normalizer.cut_prefix q) as [r1 Hr1].
  exists (r1 ++ r2). rewrite Hn, app_assoc, <- PyStrFacts.join_snoc_app, <- Hr1.
  pose proof (PyStrFacts.join_split (py "::") (hd [] (split1 (py "[") s))
                Normalizer.sep_colons) as Hj.
  rewrite Hsplit in Hj.
  etransitivity; [exact Hr2|]. f_equal. symmetry. exact Hj.
Qed.

Lemma normalize_prefix_witness :
  ~ In LF (py "tests/x.py::test_foo_012[a-b]")
  /\ exists r,
       py "tests/x.py::test_foo_012[a-b]"
       = _normalize_test_name (py "tests/x.py::test_foo_012[a-b]") ++ r.
Proof.
  assert (H : ~ In LF (py "tests/x.py::test_foo_012[a-b]"))
    by now apply Normalizer.not_in_check.
  split; [exact H | exact (normalize_prefix _ H)].
Defined.

(** X3.  A parametrisation in brackets is dropped: a name without bracket
    and the same name followed by a bracket and anything normalise to the
    same key. *)
Theorem normalize_drops_parametrization (s p : str) :
  ~ In bracket s ->
  _normalize_test_name (s ++ py "[" ++ p) = _normalize_test_name s.
Proof.
  intros H.
  assert (Hp : hd [] (split1 (py "[") (s ++ py "[" ++ p)) = s).
  { unfold split1. change (py "[") with [bracket].
    now rewrite (PyStrMore.split_once_char_at bracket s p H). }
  unfold _normalize_test_name.
  now rewrite Hp, (NormalizerMore.base_name_free s H).
Qed.

Lemma normalize_drops_parametrization_witness :
  ~ In bracket (py "tests/x.py::test_foo")
  /\ _normalize_test_name (py "tests/x.py::test_foo" ++ py "[" ++ py "a-b]")
     = _normalize_test_name (py "tests/x.py::test_foo").
Proof.
  assert (H : ~ In bracket (py "tests/x.py::test_foo"))
    by now apply Normalizer.not_in_check.
  split; [exact H | exact (normalize_drops_parametrization _ _ H)].
Defined.

(** X4.  A numbered suffix is dropped: a name without bracket and the same
    name followed by an underscore, two digits and anything that holds no
    [::] normalise to the same key (no line feed being involved). *)
Theorem normalize_drops_numbered_suffix (s rest : str) (d1 d2 : char) :
  ~ In LF s -> ~ In LF rest -> ~ In bracket s ->
  isdecimal d1 = true -> isdecimal d2 = true ->
  split_once (py "::") rest = None ->
  _normalize_test_name (s ++ underscore :: d1 :: d2 :: rest)
  = _normalize_test_name s.
Proof.
  intros Hs Hrest Hbr H1 H2 Hcc.
  assert (Hd : forall c, isdecimal c = false -> d1 <> c /\ d2 <> c).
  { intros c Hc. split; now apply (NormalizerMore.decimal_not c). }
  set (rest0 := hd [] (split1 (py "[") rest)).
  set (x0 := underscore :: d1 :: d2 :: rest0).
  destruct (Normalizer.base_name_spec rest) as [_ [r Hr]]. fold rest0 in Hr.
  (* the two base names *)
  assert (Hbase : hd [] (split1 (py "[") (s ++ underscore :: d1 :: d2 :: rest))
                  = s ++ x0).
  { change (s ++ underscore :: d1 :: d2 :: rest)
      with (s ++ [underscore; d1; d2] ++ rest).
    rewrite app_assoc. change (py "[") with [bracket].
    rewrite PyStrMore.split1_hd_skip.
    - now rewrite <- app_assoc.
    - rewrite in_app_iff. simpl.
      destruct (Hd bracket eq_refl) as [Hb1 Hb2].
      intros [H|[H|[H|[H|[]]]]]; try tauto; try discriminate; congruence. }
  pose proof (NormalizerMore.base_name_free s Hbr) as Hbase0.
  (* the parts *)
  destruct (PyStrFacts.split_snoc (py "::") s Normalizer.sep_colons)
    as [ps [q Hsplit]].
  assert (Hx0 : split_once (py "::") x0 = None).
  { change x0 with ([underscore; d1; d2] ++ rest0).
    change (py "::") with [colon; colon].
    rewrite PyStrMore.split_once_skip.
    - change [colon; colon] with (py "::").
      rewrite Hr in Hcc.
      now rewrite (PyStrFacts.split_once_none_prefix _ _ _ Hcc).
    - simpl. destruct (Hd colon eq_refl) as [Hc1 Hc2].
      intros [H|[H|[H|[]]]]; try discriminate; congruence. }
  assert (Hsplit' : split (py "::") (s ++ x0) = ps ++ [q ++ x0]).
  { change (py "::") with [colon; colon] in *.
    apply PyStrMore.split_app_last; auto. intros x'. discriminate. }
  rewrite (Normalizer.normalize_parts _ ps (q ++ x0)) by now rewrite Hbase.
  rewrite (Normalizer.normalize_parts s ps q) by now rewrite Hbase0.
  (* the last part *)
  assert (Hq : ~ In LF q).
  { destruct (PyStrFacts.join_snoc_suffix (py "::") ps q) as [pre Hpre].
    pose proof (PyStrFacts.join_split (py "::") s Normalizer.sep_colons) as Hj.
    rewrite Hsplit, Hpre in Hj. rewrite <- Hj in Hs.
    eapply Normalizer.not_in_app_r, Hs. }
  assert (Hqx : ~ In LF (q ++ x0)).
  { rewrite in_app_iff. unfold x0. simpl.
    destruct (Hd LF eq_refl) as [Hl1 Hl2].
    rewrite Hr in Hrest. apply Normalizer.not_in_app_l in Hrest.
    intros [H|[H|[H|[H|H]]]]; try tauto; try discriminate; congruence. }
  rewrite (Normalizer.re_sub_line _ Hqx), (Normalizer.re_sub_line _ Hq).
  unfold x0. now rewrite NormalizerMore.cut_app_suffix.
Qed.

Lemma normalize_drops_numbered_suffix_witness :
  _normalize_test_name (py "pkg::test_bar" ++ underscore :: 48%N :: 52%N :: py "2_extra")
  = _normalize_test_name (py "pkg::test_bar").
Proof.
  apply normalize_drops_numbered_suffix;
    try (now apply Normalizer.not_in_check); reflexivity.
Defined.

(** ** More on the model extractor *)

Module ExtractorMore.

Import PyStrFacts PyStrMore.

Lemma hd_split_prefix (sep s : str) :
  sep <> [] -> exists post, s = hd [] (split sep s) ++ post.
Proof.
  intros Hsep. rewrite split_eq by assumption.
  destruct (split_once sep s) as [[a b]|] eqn:E; simpl.
  - exists (sep ++ b). now apply split_once_some.
  - exists []. now rewrite app_nil_r.
Qed.

Lemma hd_split_free (c : char) (s : str) : ~ In c (hd [] (split [c] s)).
Proof.
  destruct (split_char_segments c s) as [_ Hf].
  destruct (split [c] s) as [|p ps]; [simpl; tauto|].
  now inversion Hf.
Qed.

End ExtractorMore.

(** X5.  A model name that the extractor returns holds no slash and stands
    in the identifier right behind [tests/models/]. *)
Theorem extract_model_name_sound (test_node_id m : str) :
  _extract_model_name test_node_id = Some m ->
  ~ In slash m
  /\ exists post, test_node_id = py "tests/models/" ++ m ++ post.
Proof.
  intros H. destruct (Extractor.extract_some _ _ H) as (rest & Hfp & ->).
  split; [apply ExtractorMore.hd_split_free|].
  destruct (ExtractorMore.hd_split_prefix (py "/") rest ltac:(discriminate))
    as [post1 H1].
  assert (H2 : exists post2,
             test_node_id = hd [] (split1 (py "::") test_node_id) ++ post2).
  { unfold split1.
    destruct (split_once (py "::") test_node_id) as [[a b]|] eqn:E; simpl.
    - exists (py "::" ++ b). now apply PyStrFacts.split_once_some.
    - exists []. now rewrite app_nil_r. }
  destruct H2 as [post2 H2]. exists (post1 ++ post2).
  rewrite H2 at 1. rewrite Hfp. rewrite H1 at 1.
  now rewrite <- !app_assoc.
Qed.

Lemma extract_model_name_sound_witness :
  ~ In slash (py "bart")
  /\ exists post,
       py "tests/models/bart/test_modeling_bart.py::TestBart::test_x"
       = py "tests/models/" ++ py "bart" ++ post.
Proof.
  exact (extract_model_name_sound
           (py "tests/models/bart/test_modeling_bart.py::TestBart::test_x")
           (py "bart") eq_refl).
Defined.

(** X6.  The extractor finds the model name of a test below
    [tests/models/<model>/]: for a name without slash and without colon the
    result is that name, whatever follows the slash behind it. *)
Theorem extract_model_name_complete (m rest : str) :
  ~ In slash m -> ~ In colon m ->
  _extract_model_name (py "tests/models/" ++ m ++ py "/" ++ rest) = Some m.
Proof.
  intros Hs Hc.
  set (rest0 := hd [] (split1 (py "::") rest)).
  assert (Hfp : hd [] (split1 (py "::") (py "tests/models/" ++ m ++ py "/" ++ rest))
                = py "tests/models/" ++ (m ++ py "/" ++ rest0)).
  { rewrite 2 app_assoc. change (py "::") with (colon :: [colon]).
    rewrite PyStrMore.split1_hd_skip.
    - unfold rest0. now rewrite <- !app_assoc.
    - rewrite !in_app_iff. intros [[H|H]|H]; [|tauto|].
      + revert H. now apply Normalizer.not_in_check.
      + revert H. now apply Normalizer.not_in_check. }
  rewrite (Extractor.extract_below_prefix _ _ Hfp). f_equal.
  rewrite PyStrFacts.split_eq by discriminate.
  change (py "/") with [slash].
  now rewrite (PyStrMore.split_once_char_at slash m rest0 Hs).
Qed.

Lemma extract_model_name_complete_witness :
  _extract_model_name
    (py "tests/models/" ++ py "t5" ++ py "/" ++ py "test_modeling_t5.py::T5Test::test_y")
  = Some (py "t5").
Proof.
  apply extract_model_name_complete; now apply Normalizer.not_in_check.
Defined.

(** ** More on the failure aggregator *)

Module AggregatorMore.

Import PyStrFacts DictFacts Aggregator.

Lemma list_sum_perm (l l' : list nat) :
  Permutation l l' -> list_sum l = list_sum l'.
Proof. induction 1; simpl; lia. Qed.

Lemma counter_sum (c : dict str nat) (k : str) :
  list_sum (map snd (counter_incr c k)) = S (list_sum (map snd c)).
Proof.
  rewrite counter_incr_upsert.
  induction c as [|[k' n] c IH]; [reflexivity|]. simpl.
  destruct (str_eqb k' k); simpl; [|rewrite IH]; lia.
Qed.

Lemma tally_sum (msgs : list str) :
  list_sum (map snd (tally msgs)) = length msgs.
Proof.
  rewrite <- counter_tally.
  enough (H : forall c, list_sum (map snd (fold_left counter_incr msgs c))
                        = list_sum (map snd c) + length msgs)
    by (rewrite H; reflexivity).
  induction msgs as [|m msgs IH]; intros c; simpl; [lia|].
  rewrite IH, counter_sum. lia.
Qed.

Lemma sorted_tally_sum (msgs : list str) :
  list_sum (map snd (sorted_desc snd (tally msgs))) = length msgs.
Proof.
  rewrite <- tally_sum. symmetry. apply list_sum_perm, Permutation_map.
  apply SortFacts.sorted_desc_perm.
Qed.

Lemma occurrences_pos (m : str) (msgs : list str) :
  In m msgs -> 1 <= occurrences m msgs.
Proof.
  unfold occurrences. induction msgs as [|x msgs IH]; [intros []|].
  simpl. intros [->|H].
  - rewrite str_eqb_refl. simpl. lia.
  - destruct (str_eqb x m); simpl; [lia | auto].
Qed.

Lemma messages_present (key : FailureEntry -> str) (k : str)
    (es : list FailureEntry) :
  In k (map key es) -> messages_under key k es <> [].
Proof.
  unfold messages_under. rewrite in_map_iff. intros (e & <- & Hin).
  induction es as [|x es IH]; [contradiction|]. simpl.
  destruct (str_eqb_spec (key x) (key e)) as [_|Hne]; [discriminate|].
  destruct Hin as [->|Hin]; [congruence | auto].
Qed.

(** What a group built from the messages [msgs] satisfies, when there is
    one message at least. *)
Lemma group_facts (msgs : list str) :
  msgs <> [] ->
  let info := {| count := length msgs;
                 errors := sorted_desc snd (tally msgs) |} in
  count info = list_sum (map snd (errors info))
  /\ 1 <= count info
  /\ errors info <> []
  /\ forall m n, In (m, n) (errors info) -> 1 <= n.
Proof.
  intros Hne. cbn [count errors]. rewrite sorted_tally_sum.
  split; [reflexivity|]. split; [destruct msgs; simpl; [congruence | lia]|].
  split.
  - intros H. pose proof (SortFacts.sorted_desc_perm _ snd (tally msgs)) as P.
    rewrite H in P. apply Permutation_sym, Permutation_nil in P.
    unfold tally in P. destruct msgs; [congruence | discriminate].
  - intros m n H.
    destruct (proj1 (proj1 (proj2 (sorted_tally_order msgs)) m n) H) as [Hin ->].
    now apply occurrences_pos.
Qed.

Lemma count_under_by_test (es : list FailureEntry) (k : str) :
  count_under (fst (_aggregate_failures es)) k
  = length (filter (fun e => str_eqb (test_key e) k) es).
Proof.
  rewrite aggregate_failures_eq. cbn [fst].
  rewrite count_under_groups; cbn [count].
  - unfold messages_under. now rewrite length_map.
  - intros H. rewrite in_first_seen in H. now rewrite (no_messages _ _ _ H).
Qed.

Lemma count_under_by_model (es : list FailureEntry) (m : str) :
  count_under (snd (_aggregate_failures es)) m
  = length (filter (fun e => has_model m e && model_nonempty e) es).
Proof.
  rewrite aggregate_failures_eq. cbn [snd].
  rewrite count_under_groups; cbn [count].
  - unfold messages_under. now rewrite length_map, model_entries.
  - intros H. rewrite in_first_seen in H. now rewrite (no_messages _ _ _ H).
Qed.

End AggregatorMore.

(** X7.  The keys of the two mappings are the normalised test names and the
    non-empty model names of the entries, each once, in the order in which
    the entries first show them. *)
Theorem aggregate_keys_first_seen (failure_entries : list FailureEntry) :
  map fst (fst (_aggregate_failures failure_entries))
  = first_seen (map test_key failure_entries)
  /\ map fst (snd (_aggregate_failures failure_entries))
     = first_seen (map model_key (filter model_nonempty failure_entries))
  /\ NoDup (map fst (fst (_aggregate_failures failure_entries)))
  /\ NoDup (map fst (snd (_aggregate_failures failure_entries))).
Proof.
  rewrite Aggregator.aggregate_failures_eq. cbn [fst snd].
  rewrite !map_map. cbn [fst]. rewrite !map_id.
  repeat split; apply DictFacts.first_seen_nodup.
Qed.

(** X8.  In every group of the two mappings the count is the sum of the
    counts of its errors; no group has the count 0, no group is without
    errors and no error has the count 0. *)
Theorem group_count_is_sum_of_errors (failure_entries : list FailureEntry)
    (k : str) (info : Group) :
  In (k, info) (fst (_aggregate_failures failure_entries))
  \/ In (k, info) (snd (_aggregate_failures failure_entries)) ->
  count info = list_sum (map snd (errors info))
  /\ 1 <= count info
  /\ errors info <> []
  /\ forall m n, In (m, n) (errors info) -> 1 <= n.
Proof.
  rewrite Aggregator.aggregate_failures_eq. cbn [fst snd].
  intros [H|H]; pose proof H as Hk;
    apply Aggregator.in_groups in H; subst info;
    apply AggregatorMore.group_facts, AggregatorMore.messages_present;
    apply DictFacts.in_first_seen;
    apply (in_map fst) in Hk; rewrite map_map in Hk; cbn [fst] in Hk;
    now rewrite map_id in Hk.
Qed.

Lemma group_count_is_sum_of_errors_witness :
  let info := {| count := 3; errors := [(py "B", 2); (py "A", 1)] |} in
  count info = list_sum (map snd (errors info))
  /\ 1 <= count info
  /\ errors info <> []
  /\ forall m n, In (m, n) (errors info) -> 1 <= n.
Proof.
  pose (entry := fun msg =>
    {| job_name := py "tests_torch";
       test_name := py "tests/models/bart/test_modeling_bart.py::test_x";
       error := msg; model_name := Some (py "bart") |}).
  exact (group_count_is_sum_of_errors
           [entry (py "A"); entry (py "B"); entry (py "B")] (py "bart")
           {| count := 3; errors := [(py "B", 2); (py "A", 1)] |}
           (or_intror (or_introl eq_refl))).
Defined.

(** X9.  The count of the by-test group under a key is the number of
    entries whose normalised test name is that key (0 when there is no such
    group): every entry is counted in by-test, with or without model name. *)
Theorem by_test_counts_entries (failure_entries : list FailureEntry) (k : str) :
  count_under (fst (_aggregate_failures failure_entries)) k
  = length (filter (fun e => str_eqb (test_key e) k) failure_entries).
Proof. apply AggregatorMore.count_under_by_test. Qed.

(** X10.  Aggregating two lists of entries together adds the counts of
    their groups, in both mappings. *)
Theorem aggregate_counts_add (es1 es2 : list FailureEntry) (k : str) :
  count_under (fst (_aggregate_failures (es1 ++ es2))) k
  = count_under (fst (_aggregate_failures es1)) k
    + count_under (fst (_aggregate_failures es2)) k
  /\ count_under (snd (_aggregate_failures (es1 ++ es2))) k
     = count_under (snd (_aggregate_failures es1)) k
       + count_under (snd (_aggregate_failures es2)) k.
Proof.
  rewrite !AggregatorMore.count_under_by_test,
    !AggregatorMore.count_under_by_model.
  now rewrite !filter_app, !length_app.
Qed.

(** ** More on the report renderer *)

Module RendererMore.

(** Which of the three marker lines a report holds. *)
Lemma marker_lines (h : str) (bt bm : dict str Group) :
  (forall t, h <> 124%N :: t) -> h <> [] ->
  h <> py "# Failure summary" ++ [LF] ->
  In h (report_lines bt bm)
  <-> match bt with
      | [] => h = no_failures_line
      | _ :: _ => h = by_test_heading \/ h = by_model_heading
      end.
Proof.
  intros H1 H2 H3. destruct bt as [|kg bt].
  - change (In h [py "# Failure summary" ++ [LF]; no_failures_line]
            <-> h = no_failures_line).
    split.
    + intros [H|[H|[]]]; [now elim H3 | now symmetry].
    + intros ->. right. now left.
  - unfold report_lines. now apply Renderer.in_tables.
Qed.

Lemma by_test_empty (es : list FailureEntry) :
  fst (_aggregate_failures es) = [] <-> es = [].
Proof.
  rewrite Aggregator.aggregate_failures_eq. cbn [fst].
  destruct es; simpl; split; try reflexivity; discriminate.
Qed.

End RendererMore.

(** X11.  The rows of a table are the groups of the mapping by descending
    count, and the groups of one count keep the order they have in the
    mapping. *)
Theorem table_rows_order (d : dict str Group) :
  exists d',
    table_rows d = map format_row d'
    /\ Permutation d d'
    /\ StronglySorted (fun a b => count (snd b) <= count (snd a)) d'
    /\ forall c,
         filter (fun x => count (snd x) =? c) d'
         = filter (fun x => count (snd x) =? c) d.
Proof.
  exists (sorted_desc (fun x => count (snd x)) d).
  split; [reflexivity|]. split; [apply SortFacts.sorted_desc_perm|].
  split; [apply SortFacts.sorted_desc_sorted|].
  intros c. apply SortFacts.sorted_desc_stable.
Qed.

(** X12.  The report made of the aggregator's results says "No failures
    were reported." exactly when there is no failure entry, and shows the
    two tables exactly when there is one. *)
Theorem report_of_entries (failure_entries : list FailureEntry) :
  let lines :=
    report_lines (fst (_aggregate_failures failure_entries))
      (snd (_aggregate_failures failure_entries)) in
  (In no_failures_line lines <-> failure_entries = [])
  /\ (In by_test_heading lines <-> failure_entries <> [])
  /\ (In by_model_heading lines <-> failure_entries <> []).
Proof.
  cbv zeta. pose proof (RendererMore.by_test_empty failure_entries) as He.
  rewrite !RendererMore.marker_lines by discriminate.
  destruct (fst (_aggregate_failures failure_entries)) as [|kg bt].
  - assert (failure_entries = []) as -> by now apply He.
    repeat split; try reflexivity; try discriminate; intros H; now elim H.
  - assert (Hne : failure_entries <> []).
    { intros H. apply He in H. discriminate. }
    repeat split; auto; try tauto.
    intros [H|H]; discriminate.
Qed.

(** ** More on dictionaries *)

Module DictMore.

Import PyStrFacts DictFacts.

Section Lookup.

Variable V : Type.

(** Insert, then look up. *)
Lemma dict_get_set (d : dict str V) (k k' : str) (v : V) :
  dict_get str_eqb (dict_set str_eqb d k v) k'
  = if str_eqb k k' then Some v else dict_get str_eqb d k'.
Proof.
  induction d as [|[k0 v0] d IH]; simpl.
  - reflexivity.
  - destruct (str_eqb_spec k0 k) as [->|Hne]; simpl.
    + now destruct (str_eqb k k').
    + rewrite IH. destruct (str_eqb_spec k0 k') as [->|Hne'];
        [|reflexivity].
      now rewrite (str_eqb_neq k k') by congruence.
Qed.

Lemma dict_set_keys (d : dict str V) (k : str) (v : V) :
  map fst (dict_set str_eqb d k v)
  = if existsb (str_eqb k) (map fst d) then map fst d else map fst d ++ [k].
Proof.
  induction d as [|[k0 v0] d IH]; [reflexivity|]. simpl.
  destruct (str_eqb_spec k0 k) as [->|Hne]; simpl.
  - now rewrite str_eqb_refl.
  - rewrite (str_eqb_neq k k0) by congruence. simpl. rewrite IH.
    now destruct (existsb (str_eqb k) (map fst d)).
Qed.

Lemma dict_set_nodup (d : dict str V) (k : str) (v : V) :
  NoDup (map fst d) -> NoDup (map fst (dict_set str_eqb d k v)).
Proof.
  intros H. rewrite dict_set_keys.
  destruct (existsb (str_eqb k) (map fst d)) eqn:E; [assumption|].
  apply NoDup_app; [assumption | repeat constructor; tauto|].
  intros x Hx [<-|[]]. apply existsb_str_in in Hx. congruence.
Qed.

Lemma dict_get_none (d : dict str V) (k : str) :
  dict_get str_eqb d k = None <-> ~ In k (map fst d).
Proof.
  induction d as [|[k0 v0] d IH]; simpl; [tauto|].
  destruct (str_eqb_spec k0 k) as [->|Hne].
  - split; [discriminate | tauto].
  - rewrite IH. tauto.
Qed.

(** In a dictionary a lookup finds the one item of the key. *)
Lemma dict_get_in (d : dict str V) (k : str) (v : V) :
  NoDup (map fst d) ->
  dict_get str_eqb d k = Some v <-> In (k, v) d.
Proof.
  induction d as [|[k0 v0] d IH]; simpl.
  - intros _. split; [discriminate | tauto].
  - intros H. inversion H as [|? ? Hk0 Hd]; subst.
    destruct (str_eqb_spec k0 k) as [->|Hne].
    + split.
      * intros [= ->]. now left.
      * intros [[= ->]|Hin]; [reflexivity|].
        elim Hk0. apply (in_map fst) in Hin. exact Hin.
    + rewrite (IH Hd). split; [tauto|].
      intros [[= -> _]|Hin]; [congruence | assumption].
Qed.

Lemma option_ext (a b : option V) :
  (forall v, a = Some v <-> b = Some v) -> a = b.
Proof.
  intros H. destruct a as [x|], b as [y|]; try reflexivity.
  - symmetry. now apply (H x).
  - pose proof (proj1 (H x) eq_refl). discriminate.
  - pose proof (proj2 (H y) eq_refl). discriminate.
Qed.

(** The order of the items does not matter to a lookup. *)
Lemma dict_get_perm (d d' : dict str V) (k : str) :
  NoDup (map fst d) -> Permutation d d' ->
  dict_get str_eqb d' k = dict_get str_eqb d k.
Proof.
  intros Hd Hp.
  assert (Hd' : NoDup (map fst d')).
  { eapply Permutation_NoDup; [apply Permutation_map, Hp | exact Hd]. }
  apply option_ext. intros v.
  rewrite (dict_get_in d' k v Hd'), (dict_get_in d k v Hd).
  split; apply Permutation_in; [now symmetry | assumption].
Qed.

End Lookup.

End DictMore.

(** ** More on the summary parser *)

Module ParserMore.

Import PyStrFacts DictMore.

Lemma for_each_app (A S : Type) (body : S -> A -> result S)
    (l1 l2 : list A) (s : S) :
  for_each body (l1 ++ l2) s
  = match for_each body l1 s with
    | Ok s' => for_each body l2 s'
    | Raise e => Raise e
    end.
Proof.
  revert s; induction l1 as [|x l1 IH]; intros s; simpl; [reflexivity|].
  destruct (body s x); [apply IH | reflexivity].
Qed.

(** The two nested loops are one loop over all lines. *)
Lemma parse_summaries_lines (nodes : dict N str) :
  parse_summaries nodes
  = for_each summary_line (summary_lines nodes) [].
Proof.
  unfold parse_summaries, summary_lines. generalize (@nil (str * status)).
  induction nodes as [|node nodes IH]; intros d; simpl; [reflexivity|].
  rewrite for_each_app.
  destruct (for_each summary_line (splitlines (snd node)) d);
    [apply IH | reflexivity].
Qed.

Lemma blank_failed_raises (d : dict str status) (line : str) :
  summary_line d line = Raise IndexError <-> blank_failed line = true.
Proof.
  unfold blank_failed. rewrite andb_true_iff.
  apply Parser.summary_line_raises.
Qed.

Lemma lines_raise (lines : list str) (d : dict str status) :
  for_each summary_line lines d = Raise IndexError
  <-> exists line, In line lines /\ blank_failed line = true.
Proof.
  revert d; induction lines as [|l lines IH]; intros d; simpl.
  - split; [discriminate | intros (x & [] & _)].
  - destruct (summary_line d l) as [d'|[]] eqn:E.
    + rewrite IH. split.
      * intros (x & Hin & Hx). exists x. auto.
      * intros (x & [->|Hin] & Hx); [|exists x; auto].
        apply (blank_failed_raises d) in Hx. congruence.
    + split; [|reflexivity]. intros _. exists l.
      split; [now left | now apply (blank_failed_raises d)].
Qed.

(** What a line does to the summary: nothing, or one assignment. *)
Lemma summary_line_cases (d d' : dict str status) (line : str) :
  summary_line d line = Ok d' ->
  (d' = d /\ forall t st, ~ records line t st)
  \/ exists t st,
       d' = dict_set str_eqb d t st
       /\ forall t' st', records line t' st' <-> t' = t /\ st' = st.
Proof.
  unfold records, summary_line.
  destruct (startswith (py "PASSED ") line).
  - intros [= <-]. right. eexists _, Passed. split; [reflexivity|].
    simpl. intros t' st'. split; [intros [= <- <-]; auto | intros [-> ->]; auto].
  - destruct (startswith (py "FAILED ") line).
    + destruct (split_ws _) as [|w ws]; [discriminate|].
      intros [= <-]. right. exists w, Failed. split; [reflexivity|].
      simpl. intros t' st'.
      split; [intros [= <- <-]; auto | intros [-> ->]; auto].
    + intros [= <-]. left. split; [reflexivity|]. intros t st. discriminate.
Qed.

(** Lines that record nothing for [t] leave its status as it is. *)
Lemma lines_keep (lines : list str) (d d' : dict str status) (t : str) :
  for_each summary_line lines d = Ok d' ->
  (forall l st, In l lines -> ~ records l t st) ->
  dict_get str_eqb d' t = dict_get str_eqb d t.
Proof.
  revert d; induction lines as [|l lines IH]; intros d; simpl.
  - now intros [= <-].
  - destruct (summary_line d l) as [d1|] eqn:E; [|discriminate].
    intros H Hno. rewrite (IH d1 H) by (intros; apply Hno; auto).
    destruct (summary_line_cases _ _ _ E) as [[-> _]|(t0 & st0 & -> & Hrec)];
      [reflexivity|].
    rewrite dict_get_set. destruct (str_eqb_spec t0 t) as [->|]; [|reflexivity].
    elim (Hno l st0); [now left | now apply Hrec].
Qed.

Lemma parse_nodup (lines : list str) (d d' : dict str status) :
  for_each summary_line lines d = Ok d' ->
  NoDup (map fst d) -> NoDup (map fst d').
Proof.
  revert d; induction lines as [|l lines IH]; intros d; simpl.
  - now intros [= <-].
  - destruct (summary_line d l) as [d1|] eqn:E; [|discriminate].
    intros H Hd. apply (IH d1 H).
    destruct (summary_line_cases _ _ _ E) as [[-> _]|(t0 & st0 & -> & _)];
      [assumption | now apply dict_set_nodup].
Qed.

End ParserMore.

(** X13.  Parsing the summaries of a job raises [IndexError] exactly when
    one of their lines starts with [FAILED ] and holds nothing but
    whitespace behind it; with no such line it returns a summary. *)
Theorem parse_summaries_raises (job_test_summaries : dict N str) :
  (parse_summaries job_test_summaries = Raise IndexError
   <-> exists line,
         In line (summary_lines job_test_summaries)
         /\ blank_failed line = true)
  /\ ((exists summary, parse_summaries job_test_summaries = Ok summary)
      <-> forall line,
            In line (summary_lines job_test_summaries) ->
            blank_failed line = false).
Proof.
  rewrite ParserMore.parse_summaries_lines.
  pose proof (ParserMore.lines_raise (summary_lines job_test_summaries) [])
    as H.
  split; [exact H|]. split.
  - intros [summary Hs] line Hin.
    destruct (blank_failed line) eqn:E; [|reflexivity].
    assert (Hr : for_each summary_line (summary_lines job_test_summaries) []
                 = Raise IndexError) by (apply H; eauto).
    congruence.
  - intros Hall.
    destruct (for_each summary_line (summary_lines job_test_summaries) [])
      as [summary|[]] eqn:E; [eauto|].
    destruct (proj1 H eq_refl) as (line & Hin & Hb).
    rewrite (Hall line Hin) in Hb. discriminate.
Qed.

(** X14.  The last line that names a test decides its status: if parsing
    returns a summary, a test has the status of the last line that records
    one for it, and a test that no line records is not in the summary. *)
Theorem summary_last_write_wins (job_test_summaries : dict N str)
    (summary : dict str status) (t : str) :
  parse_summaries job_test_summaries = Ok summary ->
  (forall before line after st,
     summary_lines job_test_summaries = before ++ line :: after ->
     records line t st ->
     (forall l st', In l after -> ~ records l t st') ->
     dict_get str_eqb summary t = Some st)
  /\ ((forall l st', In l (summary_lines job_test_summaries) ->
                     ~ records l t st') ->
      dict_get str_eqb summary t = None).
Proof.
  rewrite ParserMore.parse_summaries_lines. intros H. split.
  - intros before line after st Hl Hrec Hafter. rewrite Hl in H.
    rewrite ParserMore.for_each_app in H.
    destruct (for_each summary_line before []) as [d1|]; [|discriminate].
    simpl in H. destruct (summary_line d1 line) as [d2|] eqn:E; [|discriminate].
    rewrite (ParserMore.lines_keep after d2 summary t H Hafter).
    destruct (ParserMore.summary_line_cases _ _ _ E)
      as [[_ Hno]|(t0 & st0 & -> & Hr)].
    + now elim (Hno t st).
    + apply Hr in Hrec as [-> ->].
      now rewrite DictMore.dict_get_set, PyStrFacts.str_eqb_refl.
  - intros Hno. now rewrite (ParserMore.lines_keep _ _ _ t H Hno).
Qed.

Lemma summary_last_write_wins_witness :
  dict_get str_eqb [(py "a::b", Failed)] (py "a::b") = Some Failed.
Proof.
  refine (proj1 (summary_last_write_wins
                   [(0%N, py "PASSED a::b" ++ [LF] ++ py "FAILED a::b - E")]
                   [(py "a::b", Failed)] (py "a::b") eq_refl)
            [py "PASSED a::b"] (py "FAILED a::b - E") [] Failed
            eq_refl eq_refl _).
  intros l st' [].
Defined.

(** ** The order of strings and the ascending sort *)

Module OrderFacts.

Import PyStrFacts.

Lemma str_leb_refl (a : str) : str_leb a a = true.
Proof. induction a as [|x a IH]; simpl; [|rewrite N.eqb_refl]; auto. Qed.

Lemma str_leb_total (a b : str) : str_leb a b = false -> str_leb b a = true.
Proof.
  revert b; induction a as [|x a IH]; intros [|y b]; simpl; try congruence.
  rewrite (N.eqb_sym y x).
  destruct (N.eqb_spec x y) as [->|Hne]; [apply IH|].
  rewrite N.ltb_ge, N.ltb_lt. lia.
Qed.

Lemma str_leb_trans (a b c : str) :
  str_leb a b = true -> str_leb b c = true -> str_leb a c = true.
Proof.
  revert b c; induction a as [|x a IH]; intros [|y b] [|z c]; simpl;
    try congruence.
  destruct (N.eqb_spec x y) as [->|Hxy].
  - destruct (N.eqb_spec y z) as [->|Hyz]; [apply IH | auto].
  - destruct (N.eqb_spec y z) as [->|Hyz].
    + rewrite (proj2 (N.eqb_neq x z) Hxy). auto.
    + rewrite !N.ltb_lt. intros H1 H2.
      destruct (N.eqb_spec x z) as [->|_]; [lia|].
      apply N.ltb_lt. lia.
Qed.

Lemma str_leb_antisym (a b : str) :
  str_leb a b = true -> str_leb b a = true -> a = b.
Proof.
  revert b; induction a as [|x a IH]; intros [|y b]; simpl; try congruence.
  rewrite (N.eqb_sym y x).
  destruct (N.eqb_spec x y) as [->|Hne].
  - intros H1 H2. f_equal. now apply IH.
  - rewrite !N.ltb_lt. lia.
Qed.

Section Lex.

Variable A : Type.
Variables f g : A -> str.

Lemma lex_leb_total (x y : A) :
  lex_leb f g x y = false -> lex_leb f g y x = true.
Proof.
  unfold lex_leb.
  destruct (str_eqb_spec (f x) (f y)) as [E|Hne].
  - rewrite E, str_eqb_refl. apply str_leb_total.
  - rewrite (str_eqb_neq (f y) (f x)) by congruence. apply str_leb_total.
Qed.

Lemma lex_leb_trans (x y z : A) :
  lex_leb f g x y = true -> lex_leb f g y z = true -> lex_leb f g x z = true.
Proof.
  unfold lex_leb.
  destruct (str_eqb_spec (f x) (f y)) as [Exy|Hxy];
    destruct (str_eqb_spec (f y) (f z)) as [Eyz|Hyz].
  - rewrite Exy, Eyz, str_eqb_refl. apply str_leb_trans.
  - rewrite Exy, (str_eqb_neq _ _ Hyz). auto.
  - rewrite <- Eyz, (str_eqb_neq _ _ Hxy). auto.
  - intros H1 H2. destruct (str_eqb_spec (f x) (f z)) as [Exz|_].
    + elim Hxy. apply str_leb_antisym; [assumption|]. now rewrite Exz.
    + now apply (str_leb_trans _ (f y)).
Qed.

End Lex.

Section SortAsc.

Variable A : Type.
Variable leb : A -> A -> bool.
Hypothesis leb_total : forall x y, leb x y = false -> leb y x = true.
Hypothesis leb_trans :
  forall x y z, leb x y = true -> leb y z = true -> leb x z = true.

Lemma insert_asc_perm (x : A) (l : list A) :
  Permutation (x :: l) (insert_asc leb x l).
Proof.
  induction l as [|y l IH]; simpl; [reflexivity|].
  destruct (leb x y); [reflexivity|].
  rewrite perm_swap. now constructor.
Qed.

Lemma sorted_asc_perm (l : list A) : Permutation l (sorted_asc leb l).
Proof.
  induction l as [|x l IH]; simpl; [reflexivity|].
  rewrite <- insert_asc_perm. now constructor.
Qed.

Lemma insert_asc_sorted (x : A) (l : list A) :
  StronglySorted (fun a b => leb a b = true) l ->
  StronglySorted (fun a b => leb a b = true) (insert_asc leb x l).
Proof.
  induction 1 as [|y l Hs IH Hy]; simpl.
  - repeat constructor.
  - destruct (leb x y) eqn:E.
    + constructor; [now constructor|].
      constructor; [assumption|].
      eapply Forall_impl; [|exact Hy]. intros a. now apply leb_trans.
    + constructor; [assumption|].
      eapply Permutation_Forall; [apply insert_asc_perm|].
      constructor; [now apply leb_total | assumption].
Qed.

Lemma sorted_asc_sorted (l : list A) :
  StronglySorted (fun a b => leb a b = true) (sorted_asc leb l).
Proof.
  induction l as [|x l IH]; simpl; [constructor|].
  now apply insert_asc_sorted.
Qed.

End SortAsc.

Lemma sorted_impl (A : Type) (R R' : A -> A -> Prop) (l : list A) :
  (forall a b, R a b -> R' a b) ->
  StronglySorted R l -> StronglySorted R' l.
Proof.
  intros H. induction 1 as [|x l Hs IH Hx]; constructor; [assumption|].
  eapply Forall_impl; [|exact Hx]. apply H.
Qed.

Lemma sorted_map (A B : Type) (h : A -> B) (R : B -> B -> Prop) (l : list A) :
  StronglySorted (fun a b => R (h a) (h b)) l -> StronglySorted R (map h l).
Proof.
  induction 1 as [|x l Hs IH Hx]; simpl; constructor; [assumption|].
  now apply Forall_map.
Qed.

(** Sorting the items of a dictionary and making a dictionary of them
    keeps the sorted list. *)
Lemma sorted_dict (V : Type) (leb : str * V -> str * V -> bool)
    (d : dict str V) :
  NoDup (map fst d) ->
  dict_of_items str_eqb (sorted_asc leb d) = sorted_asc leb d.
Proof.
  intros H. apply DictFacts.dict_of_items_distinct.
  eapply Permutation_NoDup; [|exact H].
  apply Permutation_map, sorted_asc_perm.
Qed.

Lemma summary_item_before (x y : str * status) :
  summary_item_leb x y = true -> summary_before x y.
Proof.
  unfold summary_item_leb, summary_before.
  destruct (snd x), (snd y); simpl; auto. discriminate.
Qed.

End OrderFacts.

(** X15.  The summary of a job comes failed tests first, then passed ones,
    by test name within each status; it holds the tests of the parsed
    summary, each once, with their status. *)
Theorem job_summary_ordered (job_test_summaries : dict N str)
    (summary : dict str status) :
  job_summary job_test_summaries = Ok summary ->
  StronglySorted summary_before summary
  /\ NoDup (map fst summary)
  /\ exists parsed,
       parse_summaries job_test_summaries = Ok parsed
       /\ Permutation parsed summary
       /\ forall t, dict_get str_eqb summary t = dict_get str_eqb parsed t.
Proof.
  unfold job_summary.
  destruct (parse_summaries job_test_summaries) as [parsed|] eqn:E;
    [|discriminate].
  intros [= <-].
  assert (Hnd : NoDup (map fst parsed)).
  { rewrite ParserMore.parse_summaries_lines in E.
    apply (ParserMore.parse_nodup _ _ _ E). constructor. }
  unfold sort_summary. rewrite (OrderFacts.sorted_dict _ _ _ Hnd).
  pose proof (OrderFacts.sorted_asc_perm _ summary_item_leb parsed) as Hp.
  split; [|split].
  - eapply OrderFacts.sorted_impl; [apply OrderFacts.summary_item_before|].
    apply OrderFacts.sorted_asc_sorted.
    + apply (OrderFacts.lex_leb_total _ (fun x => status_str (snd x)) fst).
    + apply (OrderFacts.lex_leb_trans _ (fun x => status_str (snd x)) fst).
  - eapply Permutation_NoDup; [apply Permutation_map, Hp | exact Hnd].
  - exists parsed. split; [reflexivity|]. split; [exact Hp|].
    intros t. now apply DictMore.dict_get_perm.
Qed.

Lemma job_summary_ordered_witness :
  StronglySorted summary_before [(py "c::d", Failed); (py "a::b", Passed)].
Proof.
  exact (proj1 (job_summary_ordered
                  [(0%N, py "PASSED a::b" ++ [LF] ++ py "FAILED c::d - AssertionError")]
                  [(py "c::d", Failed); (py "a::b", Passed)] eq_refl)).
Defined.

(** ** More on the failure details *)

Module CollectMore.

Import PyStrMore.

Lemma correlate_line_entry (job : str) (details : list str)
    (idx : nat) (es : list FailureEntry) (line : str) :
  reported_failure line = true ->
  exists e,
    correlate_line job details (idx, es) line = (idx + 1, es ++ [e])
    /\ entry_of_job job e.
Proof.
  intros H. unfold correlate_line. rewrite H.
  destruct (partition _ _) as [[t sep] e].
  eexists. split; [reflexivity|].
  repeat split. simpl. apply strip_strip.
Qed.

Lemma correlate_entries (job : str) (details lines : list str) :
  forall (idx : nat) (es : list FailureEntry),
  exists new,
    snd (fold_left (correlate_line job details) lines (idx, es)) = es ++ new
    /\ length new = length (filter reported_failure lines)
    /\ Forall (entry_of_job job) new.
Proof.
  induction lines as [|l lines IH]; intros idx es; cbn [fold_left filter].
  - exists []. simpl. now rewrite app_nil_r.
  - destruct (reported_failure l) eqn:El.
    + destruct (correlate_line_entry job details idx es l El)
        as (e & -> & He).
      destruct (IH (idx + 1) (es ++ [e])) as (new & Hn & Hl & Hf).
      exists (e :: new). rewrite Hn, <- app_assoc. simpl.
      repeat split; auto.
    + unfold correlate_line at 2. rewrite El. apply IH.
Qed.

Lemma collect_entries (job : str) (jfl nodes : dict N str) :
  forall es : list FailureEntry,
  exists new,
    collect_failures job nodes jfl es = es ++ new
    /\ length new = length (filter reported_failure (summary_lines nodes))
    /\ Forall (entry_of_job job) new.
Proof.
  unfold collect_failures.
  induction nodes as [|[node_index text] nodes IH]; intros es.
  - exists []. simpl. now rewrite app_nil_r.
  - cbn [fold_left]. unfold collect_node at 2.
    destruct (correlate_entries job
                (match dict_get N.eqb jfl node_index with
                 | Some t => failure_lines t
                 | None => []
                 end) (splitlines text) 0 es) as (new1 & -> & Hl1 & Hf1).
    destruct (IH (es ++ new1)) as (new2 & -> & Hl2 & Hf2).
    exists (new1 ++ new2). rewrite <- app_assoc. split; [reflexivity|].
    split.
    + unfold summary_lines in *. cbn [flat_map snd].
      rewrite filter_app, !length_app. lia.
    + apply Forall_app. auto.
Qed.

End CollectMore.

(** X16.  Every candidate full-error line of a detail block is a stripped
    line of the block that is not empty, holds [": "], and starts neither
    with [=] or [_] nor, in any letter case, with [short test summary]; a
    second [strip()] leaves it as it is. *)
Theorem failure_lines_candidates (text line : str) :
  In line (failure_lines text) ->
  (exists raw, In raw (splitlines text) /\ line = strip raw)
  /\ line <> []
  /\ strip line = line
  /\ contains (py ": ") line = true
  /\ startswith (py "=") line = false
  /\ startswith (py "_") line = false
  /\ startswith (py "short test summary") (lower line) = false.
Proof.
  unfold failure_lines. rewrite filter_In, in_map_iff.
  intros [(raw & <- & Hraw) Hk]. unfold keep_failure_line in Hk.
  repeat (apply andb_true_iff in Hk as [Hk ?]).
  rewrite negb_true_iff in *. apply orb_false_iff in H1 as [? ?].
  split; [exists raw; auto|].
  split; [intros E; rewrite E in Hk; discriminate|].
  split; [apply PyStrMore.strip_strip|]. auto.
Qed.

Lemma failure_lines_candidates_witness :
  strip (py "a.py:3: ValueError: boom") = py "a.py:3: ValueError: boom".
Proof.
  exact (proj1 (proj2 (proj2
           (failure_lines_candidates
              (py "==== FAILURES ====" ++ [LF] ++ py "  a.py:3: ValueError: boom  ")
              (py "a.py:3: ValueError: boom") (or_introl eq_refl))))).
Defined.

(** X17.  Collecting the failures of a job only appends to the list of
    entries: it adds one entry for each line of the job's summaries that
    starts with [FAILED ] and is not a subprocess failure; each new entry
    bears the job's name, a stripped test name and the model name that the
    extractor gives for that test name. *)
Theorem collect_failures_appends (job : str)
    (job_test_summaries job_failure_lines : dict N str)
    (failure_entries : list FailureEntry) :
  exists new,
    collect_failures job job_test_summaries job_failure_lines failure_entries
    = failure_entries ++ new
    /\ length new
       = length (filter reported_failure (summary_lines job_test_summaries))
    /\ Forall (entry_of_job job) new.
Proof. apply CollectMore.collect_entries. Qed.

(** X18.  From the summaries to the mapping: the counts of the by-test
    groups made of a job's entries add up to the number of its reported
    failure lines. *)
Theorem by_test_counts_reported_lines (job : str)
    (job_test_summaries job_failure_lines : dict N str) :
  sum_counts
    (fst (_aggregate_failures
            (collect_failures job job_test_summaries job_failure_lines [])))
  = length (filter reported_failure (summary_lines job_test_summaries)).
Proof.
  destruct (CollectMore.collect_entries job job_failure_lines
              job_test_summaries []) as (new & -> & Hl & _).
  unfold _aggregate_failures. rewrite Aggregator.aggregate_fold. cbn [fst].
  rewrite Aggregator.sum_counts_convert, Aggregator.sum_counts_fold.
  simpl. exact Hl.
Qed.

(** ** The workflow summary *)

Module WorkflowMore.

Import PyStrFacts DictFacts DictMore OrderFacts.

Section Items.

Variable V : Type.

Lemma dict_get_app (a b : dict str V) (k : str) :
  dict_get str_eqb (a ++ b) k
  = match dict_get str_eqb a k with
    | Some v => Some v
    | None => dict_get str_eqb b k
    end.
Proof.
  induction a as [|[k0 v0] a IH]; simpl; [reflexivity|].
  now destruct (str_eqb k0 k).
Qed.

(** [dict(items)]: the last item of a key gives its value. *)
Lemma dict_of_items_from (items : list (str * V)) (d : dict str V) (k : str) :
  dict_get str_eqb
    (fold_left (fun d kv => dict_set str_eqb d (fst kv) (snd kv)) items d) k
  = match dict_get str_eqb (rev items) k with
    | Some v => Some v
    | None => dict_get str_eqb d k
    end.
Proof.
  revert d; induction items as [|[k0 v0] items IH]; intros d; simpl;
    [reflexivity|].
  rewrite IH, dict_get_app, dict_get_set. simpl.
  destruct (dict_get str_eqb (rev items) k); [reflexivity|].
  now destruct (str_eqb k0 k).
Qed.

Lemma dict_of_items_last (items : list (str * V)) (k : str) :
  dict_get str_eqb (dict_of_items str_eqb items) k
  = dict_get str_eqb (rev items) k.
Proof.
  unfold dict_of_items. rewrite dict_of_items_from. simpl.
  now destruct (dict_get str_eqb (rev items) k).
Qed.

Lemma dict_of_items_nodup (items : list (str * V)) :
  NoDup (map fst (dict_of_items str_eqb items)).
Proof.
  unfold dict_of_items.
  assert (H : NoDup (map fst (@nil (str * V)))) by constructor.
  revert H. generalize (@nil (str * V)).
  induction items as [|kv items IH]; intros d Hd; simpl; [assumption|].
  apply IH. now apply dict_set_nodup.
Qed.

(** In a dictionary the items of one key are one item at most. *)
Lemma filter_key (d : dict str V) (k : str) :
  NoDup (map fst d) ->
  filter (fun kv => str_eqb (fst kv) k) d
  = match dict_get str_eqb d k with
    | Some v => [(k, v)]
    | None => []
    end.
Proof.
  induction d as [|[k0 v0] d IH]; simpl; [reflexivity|].
  intros H. inversion H as [|? ? Hk0 Hd]; subst.
  destruct (str_eqb_spec k0 k) as [->|Hne]; [|now apply IH].
  rewrite (IH Hd). apply dict_get_none in Hk0. now rewrite Hk0.
Qed.

End Items.

Lemma merge_status_cons (k : str) (row : dict str status)
    (d : dict str (dict str status)) (j t : str) (st : status) :
  merge_status ((k, row) :: d) j t st
  = if str_eqb k t then (k, dict_set str_eqb row j st) :: d
    else (k, row) :: merge_status d j t st.
Proof.
  unfold merge_status, dict_mem. simpl.
  destruct (str_eqb k t) eqn:E.
  - simpl. now rewrite E.
  - destruct (dict_get str_eqb d t); simpl; now rewrite E.
Qed.

Lemma merge_status_upsert (d : dict str (dict str status)) (j t : str)
    (st : status) :
  merge_status d j t st
  = upsert d t (fun row => dict_set str_eqb row j st)
      (dict_set str_eqb [] j st).
Proof.
  induction d as [|[k row] d IH].
  - unfold merge_status. simpl. now rewrite str_eqb_refl.
  - rewrite merge_status_cons. simpl. now rewrite IH.
Qed.

Lemma fold_left_flat_map (A B C : Type) (f : A -> C -> A) (g : B -> list C)
    (l : list B) (a : A) :
  fold_left f (flat_map g l) a
  = fold_left (fun a x => fold_left f (g x) a) l a.
Proof.
  revert a; induction l as [|x l IH]; intros a; simpl; [reflexivity|].
  now rewrite fold_left_app, IH.
Qed.

Lemma fold_left_map (A B C : Type) (f : A -> C -> A) (h : B -> C)
    (l : list B) (a : A) :
  fold_left f (map h l) a = fold_left (fun a x => f a (h x)) l a.
Proof.
  revert a; induction l as [|x l IH]; intros a; simpl; [reflexivity|].
  apply IH.
Qed.

(** The pairs of job name and status assigned to the row of [t] *)
Lemma merge_workflow_rows (ws : dict str (dict str status)) :
  merge_workflow ws
  = map (fun t =>
           (t, dict_of_items str_eqb
                 (map (fun x => (fst (fst x), snd x))
                    (filter (fun x => str_eqb (snd (fst x)) t)
                       (workflow_items ws)))))
      (first_seen (map (fun x => snd (fst x)) (workflow_items ws))).
Proof.
  transitivity
    (fold_left
       (add_item (fun x : str * str * status => snd (fst x))
          (fun x row => dict_set str_eqb row (fst (fst x)) (snd x)) [])
       (workflow_items ws) []).
  - unfold merge_workflow, workflow_items. rewrite fold_left_flat_map.
    apply Aggregator.fold_left_pointwise. intros new [j summ].
    unfold merge_job. cbn [fst snd]. rewrite fold_left_map.
    apply Aggregator.fold_left_pointwise. intros new' [t st].
    unfold add_item. cbn [fst snd]. apply merge_status_upsert.
  - rewrite grouping. apply map_ext. intros t. f_equal.
    unfold group_value, dict_of_items. now rewrite fold_left_map.
Qed.

Lemma key_leb_total (V : Type) (x y : str * V) :
  str_leb (fst x) (fst y) = false -> str_leb (fst y) (fst x) = true.
Proof. apply str_leb_total. Qed.

Lemma key_leb_trans (V : Type) (x y z : str * V) :
  str_leb (fst x) (fst y) = true -> str_leb (fst y) (fst z) = true ->
  str_leb (fst x) (fst z) = true.
Proof. apply str_leb_trans. Qed.

(** The merged and sorted summary: the rows of the tests in first-seen
    order, each sorted, then sorted by test. *)
Lemma new_workflow_summary_eq (ws : dict str (dict str status)) :
  new_workflow_summary ws
  = sorted_asc (fun x y => str_leb (fst x) (fst y))
      (map (fun t =>
              (t, sorted_asc row_item_leb
                    (dict_of_items str_eqb (row_pairs ws t))))
         (first_seen (map (fun x => snd (fst x)) (workflow_items ws)))).
Proof.
  unfold new_workflow_summary, sort_workflow.
  rewrite merge_workflow_rows, map_map. cbn [fst snd].
  fold (row_pairs ws).
  rewrite (map_ext _
             (fun t => (t, sorted_asc row_item_leb
                             (dict_of_items str_eqb (row_pairs ws t)))))
    by (intros t; now rewrite (sorted_dict _ _ _ (dict_of_items_nodup _ _))).
  apply sorted_dict. rewrite map_map. cbn [fst]. rewrite map_id.
  apply first_seen_nodup.
Qed.

Lemma no_row_pairs (ws : dict str (dict str status)) (t : str) :
  ~ In t (map (fun x => snd (fst x)) (workflow_items ws)) ->
  row_pairs ws t = [].
Proof.
  unfold row_pairs. induction (workflow_items ws) as [|x items IH];
    [reflexivity|].
  simpl. intros H. rewrite str_eqb_neq by tauto. apply IH. tauto.
Qed.

(** A lookup in the merged summary finds the last assignment. *)
Lemma status_of_new (ws : dict str (dict str status)) (t j : str) :
  status_of (new_workflow_summary ws) t j
  = dict_get str_eqb (rev (row_pairs ws t)) j.
Proof.
  unfold status_of. rewrite new_workflow_summary_eq.
  set (L := first_seen (map (fun x => snd (fst x)) (workflow_items ws))).
  set (G := fun t => sorted_asc row_item_leb
                       (dict_of_items str_eqb (row_pairs ws t))).
  rewrite (dict_get_perm _ (map (fun t => (t, G t)) L)).
  - rewrite dict_get_map.
    destruct (existsb (str_eqb t) L) eqn:E.
    + unfold G.
      rewrite (dict_get_perm _ (dict_of_items str_eqb (row_pairs ws t))).
      * apply dict_of_items_last.
      * apply dict_of_items_nodup.
      * apply sorted_asc_perm.
    + rewrite no_row_pairs; [reflexivity|].
      unfold L in E. rewrite <- in_first_seen, <- existsb_str_in. congruence.
  - rewrite map_map. cbn [fst]. rewrite map_id. apply first_seen_nodup.
  - apply sorted_asc_perm.
Qed.

Lemma row_pairs_cons (j0 : str) (summ : dict str status)
    (ws : dict str (dict str status)) (t : str) :
  row_pairs ((j0, summ) :: ws) t
  = map (fun ts => (j0, snd ts)) (filter (fun ts => str_eqb (fst ts) t) summ)
    ++ row_pairs ws t.
Proof.
  unfold row_pairs, workflow_items. cbn [flat_map fst snd].
  rewrite filter_app, map_app. f_equal.
  induction summ as [|[t0 st0] summ IH]; [reflexivity|]. simpl.
  destruct (str_eqb t0 t); simpl; now rewrite IH.
Qed.

(** With every job once and every test once in a job's summary, the last
    assignment to [new[t][j]] is the status [workflow_summary[j][t]]. *)
Lemma row_pairs_lookup (ws : dict str (dict str status)) (t j : str) :
  NoDup (map fst ws) ->
  (forall job summ, In (job, summ) ws -> NoDup (map fst summ)) ->
  dict_get str_eqb (rev (row_pairs ws t)) j = status_of ws j t.
Proof.
  induction ws as [|[j0 summ] ws IH]; [reflexivity|].
  intros Hnd Hrows. inversion Hnd as [|? ? Hj0 Hnd']; subst.
  rewrite row_pairs_cons, rev_app_distr, dict_get_app.
  rewrite IH by (auto; intros job s Hin; apply (Hrows job s); now right).
  rewrite (filter_key _ summ t) by (apply (Hrows j0 summ); now left).
  unfold status_of at 2. simpl.
  destruct (str_eqb_spec j0 j) as [->|Hne].
  - unfold status_of. apply dict_get_none in Hj0. rewrite Hj0.
    destruct (dict_get str_eqb summ t); simpl;
      [now rewrite str_eqb_refl | reflexivity].
  - fold (status_of ws j t). destruct (status_of ws j t); [reflexivity|].
    destruct (dict_get str_eqb summ t); simpl;
      [now rewrite (str_eqb_neq j0 j Hne) | reflexivity].
Qed.

Lemma row_item_key (x y : str * status) :
  row_item_leb x y = true -> str_leb (fst x) (fst y) = true.
Proof.
  unfold row_item_leb.
  destruct (str_eqb_spec (fst x) (fst y)) as [->|_]; [|auto].
  intros _. apply str_leb_refl.
Qed.

End WorkflowMore.

(** X19.  The workflow summary is the transpose of the job summaries: with
    every job once in the workflow and every test once in the summary of a
    job, the status under a test and a job is the status of the test in the
    summary of the job, and is missing when that one is. *)
Theorem workflow_summary_transposes (workflow_summary : dict str (dict str status))
    (test job : str) :
  NoDup (map fst workflow_summary) ->
  (forall j summary, In (j, summary) workflow_summary -> NoDup (map fst summary)) ->
  status_of (new_workflow_summary workflow_summary) test job
  = status_of workflow_summary job test.
Proof.
  intros H1 H2. rewrite WorkflowMore.status_of_new.
  now apply WorkflowMore.row_pairs_lookup.
Qed.

(** X20.  The tests of the workflow summary come in ascending order, each
    once, and so do the jobs of every row. *)
Theorem workflow_summary_sorted (workflow_summary : dict str (dict str status)) :
  StronglySorted (fun a b => str_leb a b = true)
    (map fst (new_workflow_summary workflow_summary))
  /\ NoDup (map fst (new_workflow_summary workflow_summary))
  /\ forall test row,
       In (test, row) (new_workflow_summary workflow_summary) ->
       StronglySorted (fun a b => str_leb a b = true) (map fst row)
       /\ NoDup (map fst row).
Proof.
  rewrite WorkflowMore.new_workflow_summary_eq.
  set (new := map (fun t => (t, sorted_asc row_item_leb
                                  (dict_of_items str_eqb
                                     (row_pairs workflow_summary t))))
                (first_seen (map (fun x => snd (fst x))
                               (workflow_items workflow_summary)))).
  pose proof (OrderFacts.sorted_asc_perm _ (fun x y => str_leb (fst x) (fst y)) new)
    as Hp.
  split; [|split].
  - apply OrderFacts.sorted_map.
    apply OrderFacts.sorted_asc_sorted;
      [apply WorkflowMore.key_leb_total | apply WorkflowMore.key_leb_trans].
  - eapply Permutation_NoDup; [apply Permutation_map, Hp|].
    unfold new. rewrite map_map. cbn [fst]. rewrite map_id.
    apply DictFacts.first_seen_nodup.
  - intros test row Hin.
    apply (Permutation_in _ (Permutation_sym Hp)) in Hin.
    unfold new in Hin. apply in_map_iff in Hin as (t & [= <- <-] & _).
    split.
    + apply OrderFacts.sorted_map.
      eapply OrderFacts.sorted_impl; [apply WorkflowMore.row_item_key|].
      apply OrderFacts.sorted_asc_sorted.
      * apply (OrderFacts.lex_leb_total _ fst (fun x => status_str (snd x))).
      * apply (OrderFacts.lex_leb_trans _ fst (fun x => status_str (snd x))).
    + eapply Permutation_NoDup;
        [apply Permutation_map, OrderFacts.sorted_asc_perm|].
      apply WorkflowMore.dict_of_items_nodup.
Qed.

Lemma workflow_summary_transposes_witness :
  let workflow_summary :=
    [(py "tests_torch", [(py "c::d", Failed); (py "a::b", Passed)]);
     (py "tests_hub", [(py "a::b", Failed)])] in
  status_of (new_workflow_summary workflow_summary) (py "a::b") (py "tests_hub")
  = Some Failed
  /\ status_of (new_workflow_summary workflow_summary) (py "c::d") (py "tests_hub")
     = None.
Proof.
  assert (H1 : NoDup (map fst
                        [(py "tests_torch",
                          [(py "c::d", Failed); (py "a::b", Passed)]);
                         (py "tests_hub", [(py "a::b", Failed)])])).
  { repeat constructor; simpl; intros H; repeat destruct H as [H|H];
      try discriminate H; exact H. }
  assert (H2 : forall j summary,
             In (j, summary)
               [(py "tests_torch", [(py "c::d", Failed); (py "a::b", Passed)]);
                (py "tests_hub", [(py "a::b", Failed)])] ->
             NoDup (map fst summary)).
  { intros j summary [[= <- <-]|[[= <- <-]|[]]];
      repeat constructor; simpl; intros H; repeat destruct H as [H|H];
      try discriminate H; exact H. }
  split.
  - exact (workflow_summary_transposes _ (py "a::b") (py "tests_hub") H1 H2).
  - exact (workflow_summary_transposes _ (py "c::d") (py "tests_hub") H1 H2).
Defined.
